(** * A shallow embedding of the to-do list component (src/app/page.tsx)

    The component keeps an ordered list of tasks in React state, edits it
    through event handlers, and mirrors it into [localStorage] under the key
    ['todos'] as JSON text.  This development embeds the handlers as pure
    functions on the component state, the two effects as functions on the
    state paired with the storage entry, and [JSON.stringify] / [JSON.parse]
    as a printer and a parser over UTF-16 code units. *)

From Stdlib Require Import ZArith NArith List Bool Lia.
From Stdlib Require Import DecimalFacts DecimalPos DecimalZ.
From stdpp Require Import base tactics option list numbers.

Local Open Scope Z_scope.

(** ** Strings

    A JavaScript string is a sequence of UTF-16 code units. *)

Abbreviation jsstring := (list N).

(** [String.prototype.trim] strips the code units that ECMAScript calls
    WhiteSpace or LineTerminator from both ends. *)
Definition is_white_space (c : N) : bool :=
  ((c =? 9) || (c =? 10) || (c =? 11) || (c =? 12) || (c =? 13) || (c =? 32)
   || (c =? 160) || (c =? 5760) || ((8192 <=? c) && (c <=? 8202))
   || (c =? 8232) || (c =? 8233) || (c =? 8239) || (c =? 8287)
   || (c =? 12288) || (c =? 65279))%N.

Fixpoint trimStart (s : jsstring) : jsstring :=
  match s with
  | c :: s' => if is_white_space c then trimStart s' else s
  | [] => []
  end.

Definition trimEnd (s : jsstring) : jsstring := rev (trimStart (rev s)).

Definition trim (s : jsstring) : jsstring := trimEnd (trimStart s).

(** [s !== ''] *)
Definition nonempty (s : jsstring) : bool :=
  match s with [] => false | _ :: _ => true end.

(** ** Tasks

    [id] is a JavaScript number; the component only produces integers (the
    literals 1, 2, 3 and [Date.now()]), which [Z] models exactly in the range
    of safe integers. *)

Record Todo := mkTodo { id : Z; text : jsstring; completed : bool }.

(** The list built by [setDefaultTodos]. *)
Definition defaultTodos : list Todo :=
  [ mkTodo 1 [67; 108; 97; 117; 100; 101; 12391; 12450; 12503; 12522; 12434;
              20316; 25104]%N true;
    mkTodo 2 [86; 101; 114; 99; 101; 108; 12395; 12487; 12503; 12525;
              12452]%N false;
    mkTodo 3 [12450; 12503; 12522; 12434; 20844; 38283]%N false ].

(** ** Component state

    The five [useState] cells of [TodoApp].  React compares a state value and
    an effect dependency with [Object.is], which for an array is identity of
    the array object: [todosRef] numbers the array object that [todos]
    currently holds, and every [setTodos] with a freshly built array moves it
    on. *)

Record AppState := mkApp {
  todos : list Todo;
  todosRef : nat;
  inputText : jsstring;
  isLoaded : bool;
  editingId : option Z;
  editingText : jsstring
}.

Definition initialState : AppState := mkApp [] 0 [] false None [].

Definition setTodos (l : list Todo) (st : AppState) : AppState :=
  mkApp l (S (todosRef st)) (inputText st) (isLoaded st) (editingId st)
        (editingText st).

Definition setInputText (s : jsstring) (st : AppState) : AppState :=
  mkApp (todos st) (todosRef st) s (isLoaded st) (editingId st)
        (editingText st).

Definition setIsLoaded (b : bool) (st : AppState) : AppState :=
  mkApp (todos st) (todosRef st) (inputText st) b (editingId st)
        (editingText st).

Definition setEditingId (e : option Z) (st : AppState) : AppState :=
  mkApp (todos st) (todosRef st) (inputText st) (isLoaded st) e
        (editingText st).

Definition setEditingText (s : jsstring) (st : AppState) : AppState :=
  mkApp (todos st) (todosRef st) (inputText st) (isLoaded st) (editingId st) s.

Definition setDefaultTodos (st : AppState) : AppState :=
  setTodos defaultTodos st.

(** ** Event handlers *)

(** [addTodo]; [now] is the value [Date.now()] returns during the call. *)
Definition addTodo (now : Z) (st : AppState) : AppState :=
  if nonempty (trim (inputText st)) then
    let newTodo := mkTodo now (trim (inputText st)) false in
    setInputText [] (setTodos (todos st ++ [newTodo]) st)
  else st.

Definition toggleTodo (i : Z) (st : AppState) : AppState :=
  setTodos
    (map (fun todo =>
            if id todo =? i
            then mkTodo (id todo) (text todo) (negb (completed todo))
            else todo)
         (todos st))
    st.

(** [editingId === id], with [editingId : number | null]. *)
Definition editing_is (e : option Z) (i : Z) : bool :=
  match e with Some j => j =? i | None => false end.

Definition deleteTodo (i : Z) (st : AppState) : AppState :=
  let st1 :=
    setTodos (List.filter (fun todo => negb (id todo =? i)) (todos st)) st in
  if editing_is (editingId st) i
  then setEditingText [] (setEditingId None st1)
  else st1.

Definition startEditing (i : Z) (currentText : jsstring) (st : AppState)
  : AppState :=
  setEditingText currentText (setEditingId (Some i) st).

Definition saveEdit (st : AppState) : AppState :=
  let st1 :=
    if nonempty (trim (editingText st)) && bool_decide (editingId st <> None)
    then
      setTodos
        (map (fun todo =>
                if editing_is (editingId st) (id todo)
                then mkTodo (id todo) (trim (editingText st)) (completed todo)
                else todo)
             (todos st))
        st
    else st in
  setEditingText [] (setEditingId None st1).

Definition cancelEdit (st : AppState) : AppState :=
  setEditingText [] (setEditingId None st).

(** [clearAllTodos] and [resetToDefault]; [confirmed] is the answer of
    [window.confirm]. *)
Definition clearAllTodos (confirmed : bool) (st : AppState) : AppState :=
  if confirmed
  then setEditingText [] (setEditingId None (setTodos [] st))
  else st.

Definition resetToDefault (confirmed : bool) (st : AppState) : AppState :=
  if confirmed
  then setEditingText [] (setEditingId None (setDefaultTodos st))
  else st.

(** *** Moving a task

    The two move handlers copy the array and swap two entries with a
    destructuring assignment.  Reading a JavaScript array outside its bounds
    gives [undefined] and writing past its end extends it, so the copy is
    modelled as a list of optional tasks ([None] is [undefined] or a hole).
    A negative index names an ordinary property, not an element: reading it
    gives [undefined] and writing it leaves the elements alone. *)

Abbreviation js_array := (list (option Todo)).

Definition arr_get (a : js_array) (i : Z) : option Todo :=
  if i <? 0 then None
  else match a !! Z.to_nat i with Some x => x | None => None end.

Definition arr_set (a : js_array) (i : Z) (x : option Todo) : js_array :=
  if i <? 0 then a
  else if i <? Z.of_nat (length a) then <[Z.to_nat i := x]> a
  else a ++ replicate (Z.to_nat i - length a) None ++ [x].

(** [[a[i], a[j]] = [a[j], a[i]]]: both reads happen before both writes. *)
Definition swap_entries (a : js_array) (i j : Z) : js_array :=
  let t0 := arr_get a j in
  let t1 := arr_get a i in
  arr_set (arr_set a i t0) j t1.

(** The array [moveTodoUp] leaves in the state: the swapped copy when
    [index > 0], the array as it was otherwise ([setTodos] is not called). *)
Definition moveTodoUp_array (index : Z) (prevTodos : list Todo) : js_array :=
  if 0 <? index
  then swap_entries (map Some prevTodos) index (index - 1)
  else map Some prevTodos.

(** The array the updater of [moveTodoDown] returns. *)
Definition moveTodoDown_array (index : Z) (prevTodos : list Todo) : js_array :=
  if index <? Z.of_nat (length prevTodos) - 1
  then swap_entries (map Some prevTodos) index (index + 1)
  else map Some prevTodos.

(** An array all of whose entries are tasks is a [Todo[]] again. *)
Fixpoint as_todos (a : js_array) : option (list Todo) :=
  match a with
  | [] => Some []
  | Some t :: a' =>
      match as_todos a' with Some l => Some (t :: l) | None => None end
  | None :: _ => None
  end.

(** The handlers proper.  [None] means that the new state holds an array with
    an [undefined] entry, which is outside the declared type [Todo[]].  When
    the guard fails the state keeps the array object it had. *)
Definition moveTodoUp (index : Z) (st : AppState) : option AppState :=
  if 0 <? index then
    match as_todos (moveTodoUp_array index (todos st)) with
    | Some l => Some (setTodos l st)
    | None => None
    end
  else Some st.

Definition moveTodoDown (index : Z) (st : AppState) : option AppState :=
  if index <? Z.of_nat (length (todos st)) - 1 then
    match as_todos (moveTodoDown_array index (todos st)) with
    | Some l => Some (setTodos l st)
    | None => None
    end
  else Some st.

(** ** JSON

    [JSON.stringify] and [JSON.parse] are platform functions; they are
    embedded as a printer and a recursive-descent parser over code units.
    Numbers without fraction and exponent are integers ([JNum]); any other
    number literal is kept uninterpreted as its text ([JNumLit]), since the
    component only ever produces integer ids.  Object members are kept in
    source order. *)

Local Set Warnings "-register-all".

Inductive json :=
| JNull
| JBool (b : bool)
| JNum (z : Z)
| JNumLit (lit : jsstring)
| JStr (s : jsstring)
| JArr (elements : list json)
| JObj (members : list (jsstring * json)).

Inductive result (A : Type) :=
| Ok (a : A)
| SyntaxError
| OutOfFuel.
Arguments Ok {A} a.
Arguments SyntaxError {A}.
Arguments OutOfFuel {A}.

Definition rmap {A B} (f : A -> B) (r : result A) : result B :=
  match r with
  | Ok a => Ok (f a)
  | SyntaxError => SyntaxError
  | OutOfFuel => OutOfFuel
  end.

Open Scope N_scope.

(** *** Printing *)

Fixpoint print_uint (u : Decimal.uint) : jsstring :=
  match u with
  | Decimal.Nil => []
  | Decimal.D0 u => 48 :: print_uint u
  | Decimal.D1 u => 49 :: print_uint u
  | Decimal.D2 u => 50 :: print_uint u
  | Decimal.D3 u => 51 :: print_uint u
  | Decimal.D4 u => 52 :: print_uint u
  | Decimal.D5 u => 53 :: print_uint u
  | Decimal.D6 u => 54 :: print_uint u
  | Decimal.D7 u => 55 :: print_uint u
  | Decimal.D8 u => 56 :: print_uint u
  | Decimal.D9 u => 57 :: print_uint u
  end.

Definition print_Z (z : Z) : jsstring :=
  match Z.to_int z with
  | Decimal.Pos u => print_uint u
  | Decimal.Neg u => 45 :: print_uint u
  end.

Definition hex_digit (n : N) : N := if n <? 10 then 48 + n else 87 + n.

(** The six characters [\uXXXX], lower-case hexadecimal. *)
Definition unicode_escape (c : N) : jsstring :=
  [92; 117; hex_digit (c / 4096 mod 16); hex_digit (c / 256 mod 16);
   hex_digit (c / 16 mod 16); hex_digit (c mod 16)].

Definition is_high_surrogate (c : N) : bool := (55296 <=? c) && (c <=? 56319).
Definition is_low_surrogate (c : N) : bool := (56320 <=? c) && (c <=? 57343).

(** QuoteJSONString without the enclosing quotes: short escapes, [\u]
    escapes for the other control characters and for lone surrogates,
    everything else verbatim. *)
Fixpoint quote_body (s : jsstring) : jsstring :=
  match s with
  | [] => []
  | c :: r =>
      if c =? 8 then 92 :: 98 :: quote_body r
      else if c =? 9 then 92 :: 116 :: quote_body r
      else if c =? 10 then 92 :: 110 :: quote_body r
      else if c =? 12 then 92 :: 102 :: quote_body r
      else if c =? 13 then 92 :: 114 :: quote_body r
      else if c =? 34 then 92 :: 34 :: quote_body r
      else if c =? 92 then 92 :: 92 :: quote_body r
      else if c <? 32 then unicode_escape c ++ quote_body r
      else if is_high_surrogate c then
        match r with
        | d :: r' =>
            if is_low_surrogate d then c :: d :: quote_body r'
            else unicode_escape c ++ quote_body r
        | [] => unicode_escape c
        end
      else if is_low_surrogate c then unicode_escape c ++ quote_body r
      else c :: quote_body r
  end.

Definition quote (s : jsstring) : jsstring := 34 :: quote_body s ++ [34].

Fixpoint join_comma (parts : list jsstring) : jsstring :=
  match parts with
  | [] => []
  | [p] => p
  | p :: ps => p ++ 44 :: join_comma ps
  end.

Fixpoint JSON_stringify (v : json) : jsstring :=
  match v with
  | JNull => [110; 117; 108; 108]
  | JBool true => [116; 114; 117; 101]
  | JBool false => [102; 97; 108; 115; 101]
  | JNum z => print_Z z
  | JNumLit lit => lit
  | JStr s => quote s
  | JArr l => 91 :: join_comma (map JSON_stringify l) ++ [93]
  | JObj m =>
      123 :: join_comma
               (map (fun kv => quote (fst kv) ++ 58 :: JSON_stringify (snd kv)) m)
          ++ [125]
  end.

(** *** Parsing *)

Definition is_json_ws (c : N) : bool :=
  (c =? 9) || (c =? 10) || (c =? 13) || (c =? 32).

Fixpoint skip_ws (s : jsstring) : jsstring :=
  match s with
  | c :: r => if is_json_ws c then skip_ws r else s
  | [] => []
  end.

(** [eat p s] removes the prefix [p] from [s]. *)
Fixpoint eat (p s : jsstring) : option jsstring :=
  match p, s with
  | [], _ => Some s
  | a :: p', b :: s' => if a =? b then eat p' s' else None
  | _ :: _, [] => None
  end.

Definition is_digit (c : N) : bool := (48 <=? c) && (c <=? 57).

Definition push_digit (c : N) (u : Decimal.uint) : Decimal.uint :=
  if c =? 48 then Decimal.D0 u
  else if c =? 49 then Decimal.D1 u
  else if c =? 50 then Decimal.D2 u
  else if c =? 51 then Decimal.D3 u
  else if c =? 52 then Decimal.D4 u
  else if c =? 53 then Decimal.D5 u
  else if c =? 54 then Decimal.D6 u
  else if c =? 55 then Decimal.D7 u
  else if c =? 56 then Decimal.D8 u
  else Decimal.D9 u.

(** The longest run of digits at the head of [s], and what follows it. *)
Fixpoint scan_digits (s : jsstring) : Decimal.uint * jsstring :=
  match s with
  | c :: r =>
      if is_digit c
      then let '(u, r') := scan_digits r in (push_digit c u, r')
      else (Decimal.Nil, s)
  | [] => (Decimal.Nil, [])
  end.

Definition is_nil (u : Decimal.uint) : bool :=
  match u with Decimal.Nil => true | _ => false end.

(** The integer part of a number: a single [0], or digits not starting
    with [0]. *)
Definition scan_int (s : jsstring) : option (Decimal.uint * jsstring) :=
  match s with
  | c :: r =>
      if c =? 48 then Some (Decimal.D0 Decimal.Nil, r)
      else if is_digit c then Some (scan_digits s)
      else None
  | [] => None
  end.

(** An optional fraction: [None] on a syntax error, else whether a fraction
    was read and the rest. *)
Definition scan_frac (s : jsstring) : option (bool * jsstring) :=
  match s with
  | c :: r =>
      if c =? 46 then
        let '(u, r') := scan_digits r in
        if is_nil u then None else Some (true, r')
      else Some (false, s)
  | [] => Some (false, [])
  end.

Definition scan_exp (s : jsstring) : option (bool * jsstring) :=
  match s with
  | c :: r =>
      if (c =? 101) || (c =? 69) then
        let r1 :=
          match r with
          | d :: r' => if (d =? 43) || (d =? 45) then r' else r
          | [] => r
          end in
        let '(u, r2) := scan_digits r1 in
        if is_nil u then None else Some (true, r2)
      else Some (false, s)
  | [] => Some (false, [])
  end.

Definition parse_number (s : jsstring) : result (json * jsstring) :=
  let '(neg, s1) :=
    match s with
    | c :: r => if c =? 45 then (true, r) else (false, s)
    | [] => (false, s)
    end in
  match scan_int s1 with
  | None => SyntaxError
  | Some (u, s2) =>
      match scan_frac s2 with
      | None => SyntaxError
      | Some (has_frac, s3) =>
          match scan_exp s3 with
          | None => SyntaxError
          | Some (has_exp, s4) =>
              if has_frac || has_exp
              then Ok (JNumLit (take (length s - length s4) s), s4)
              else Ok (JNum (Z.of_int (if neg then Decimal.Neg u
                                       else Decimal.Pos u)), s4)
          end
      end
  end.

Definition hex_value (c : N) : option N :=
  if is_digit c then Some (c - 48)
  else if (97 <=? c) && (c <=? 102) then Some (c - 87)
  else if (65 <=? c) && (c <=? 70) then Some (c - 55)
  else None.

Definition hex4 (a b c d : N) : option N :=
  match hex_value a, hex_value b, hex_value c, hex_value d with
  | Some x, Some y, Some z, Some w => Some (x * 4096 + y * 256 + z * 16 + w)
  | _, _, _, _ => None
  end.

Definition simple_escape (e : N) : option N :=
  if e =? 34 then Some 34
  else if e =? 92 then Some 92
  else if e =? 47 then Some 47
  else if e =? 98 then Some 8
  else if e =? 102 then Some 12
  else if e =? 110 then Some 10
  else if e =? 114 then Some 13
  else if e =? 116 then Some 9
  else None.

Definition consl (c : N) (p : jsstring * jsstring) : jsstring * jsstring :=
  (c :: fst p, snd p).

(** The characters of a string after its opening quote, up to and including
    the closing quote. *)
Fixpoint parse_string_body (s : jsstring) : result (jsstring * jsstring) :=
  match s with
  | [] => SyntaxError
  | c :: r =>
      if c =? 34 then Ok ([], r)
      else if c =? 92 then
        match r with
        | [] => SyntaxError
        | e :: r1 =>
            if e =? 117 then
              match r1 with
              | h1 :: h2 :: h3 :: h4 :: r2 =>
                  match hex4 h1 h2 h3 h4 with
                  | Some u => rmap (consl u) (parse_string_body r2)
                  | None => SyntaxError
                  end
              | _ => SyntaxError
              end
            else
              match simple_escape e with
              | Some u => rmap (consl u) (parse_string_body r1)
              | None => SyntaxError
              end
        end
      else if c <? 32 then SyntaxError
      else rmap (consl c) (parse_string_body r)
  end.

Definition parse_string (s : jsstring) : result (jsstring * jsstring) :=
  match s with
  | c :: r => if c =? 34 then parse_string_body r else SyntaxError
  | [] => SyntaxError
  end.

Definition parse_literal (lit : jsstring) (v : json) (s : jsstring)
  : result (json * jsstring) :=
  match eat lit s with
  | Some r => Ok (v, r)
  | None => SyntaxError
  end.

(** The recursive descent proper.  [parse_elements] reads the elements of an
    array after its opening bracket or a comma, [parse_members] the members
    of an object likewise.  Each call passes less fuel down. *)
Fixpoint parse_value (fuel : nat) (s : jsstring) {struct fuel}
  : result (json * jsstring) :=
  match fuel with
  | O => OutOfFuel
  | S fuel' =>
      match skip_ws s with
      | [] => SyntaxError
      | c :: r =>
          if c =? 123 then
            match skip_ws r with
            | d :: r' =>
                if d =? 125 then Ok (JObj [], r')
                else rmap (fun p => (JObj (fst p), snd p))
                          (parse_members fuel' r)
            | [] => SyntaxError
            end
          else if c =? 91 then
            match skip_ws r with
            | d :: r' =>
                if d =? 93 then Ok (JArr [], r')
                else rmap (fun p => (JArr (fst p), snd p))
                          (parse_elements fuel' r)
            | [] => SyntaxError
            end
          else if c =? 34 then
            rmap (fun p => (JStr (fst p), snd p)) (parse_string_body r)
          else if c =? 116 then parse_literal [116; 114; 117; 101] (JBool true) (c :: r)
          else if c =? 102 then parse_literal [102; 97; 108; 115; 101] (JBool false) (c :: r)
          else if c =? 110 then parse_literal [110; 117; 108; 108] JNull (c :: r)
          else parse_number (c :: r)
      end
  end
with parse_elements (fuel : nat) (s : jsstring) {struct fuel}
  : result (list json * jsstring) :=
  match fuel with
  | O => OutOfFuel
  | S fuel' =>
      match parse_value fuel' s with
      | Ok (v, r) =>
          match skip_ws r with
          | c :: r' =>
              if c =? 44 then
                rmap (fun p => (v :: fst p, snd p)) (parse_elements fuel' r')
              else if c =? 93 then Ok ([v], r')
              else SyntaxError
          | [] => SyntaxError
          end
      | SyntaxError => SyntaxError
      | OutOfFuel => OutOfFuel
      end
  end
with parse_members (fuel : nat) (s : jsstring) {struct fuel}
  : result (list (jsstring * json) * jsstring) :=
  match fuel with
  | O => OutOfFuel
  | S fuel' =>
      match parse_string (skip_ws s) with
      | Ok (k, r) =>
          match skip_ws r with
          | c :: r1 =>
              if c =? 58 then
                match parse_value fuel' r1 with
                | Ok (v, r2) =>
                    match skip_ws r2 with
                    | d :: r3 =>
                        if d =? 44 then
                          rmap (fun p => ((k, v) :: fst p, snd p))
                               (parse_members fuel' r3)
                        else if d =? 125 then Ok ([(k, v)], r3)
                        else SyntaxError
                    | [] => SyntaxError
                    end
                | SyntaxError => SyntaxError
                | OutOfFuel => OutOfFuel
                end
              else SyntaxError
          | [] => SyntaxError
          end
      | SyntaxError => SyntaxError
      | OutOfFuel => OutOfFuel
      end
  end.

(** [JSON.parse]: one value, then only white space.  [None] stands for the
    [SyntaxError] the platform function throws.  The fuel is more than the
    descent can use on a text of this length. *)
Definition parse_fuel (s : jsstring) : nat := (2 * length s + 2)%nat.

Definition JSON_parse (s : jsstring) : option json :=
  match parse_value (parse_fuel s) s with
  | Ok (v, r) => if nonempty (skip_ws r) then None else Some v
  | SyntaxError => None
  | OutOfFuel => None
  end.

Close Scope N_scope.

(** ** Persistence *)

Definition key_id : jsstring := [105; 100]%N.
Definition key_text : jsstring := [116; 101; 120; 116]%N.
Definition key_completed : jsstring :=
  [99; 111; 109; 112; 108; 101; 116; 101; 100]%N.

(** A task as the JavaScript object [{id, text, completed}], and a task list
    as the array of these. *)
Definition json_of_todo (t : Todo) : json :=
  JObj [(key_id, JNum (id t)); (key_text, JStr (text t));
        (key_completed, JBool (completed t))].

Definition json_of_todos (l : list Todo) : json := JArr (map json_of_todo l).

Definition jsstring_eqb (a b : jsstring) : bool := bool_decide (a = b).

(** The converse reading: exactly the values [json_of_todos] produces. *)
Definition todo_of_json (v : json) : option Todo :=
  match v with
  | JObj [(k1, JNum z); (k2, JStr s); (k3, JBool b)] =>
      if jsstring_eqb k1 key_id && jsstring_eqb k2 key_text
         && jsstring_eqb k3 key_completed
      then Some (mkTodo z s b) else None
  | _ => None
  end.

Fixpoint todos_of_elements (l : list json) : option (list Todo) :=
  match l with
  | [] => Some []
  | v :: l' =>
      match todo_of_json v, todos_of_elements l' with
      | Some t, Some ts => Some (t :: ts)
      | _, _ => None
      end
  end.

Definition todos_of_json (v : json) : option (list Todo) :=
  match v with
  | JArr l => todos_of_elements l
  | _ => None
  end.

(** [JSON.stringify(todos)] *)
Definition encode (l : list Todo) : jsstring :=
  JSON_stringify (json_of_todos l).

(** The value the first effect stores with [setTodos], given what
    [localStorage.getItem('todos')] returned ([None] is [null]).  The empty
    string is falsy, a [SyntaxError] of [JSON.parse] is caught. *)
Definition initial_load (savedTodos : option jsstring) : json :=
  match savedTodos with
  | Some s =>
      if nonempty s then
        match JSON_parse s with
        | Some v => v
        | None => json_of_todos defaultTodos
        end
      else json_of_todos defaultTodos
  | None => json_of_todos defaultTodos
  end.

(** The component together with the storage entry ['todos'] and the payloads
    written so far by [localStorage.setItem]. *)
Record World := mkWorld {
  app : AppState;
  storage : option jsstring;
  writes : list jsstring
}.

Definition with_app (st : AppState) (w : World) : World :=
  mkWorld st (storage w) (writes w).

Definition setItem (payload : jsstring) (w : World) : World :=
  mkWorld (app w) (Some payload) (writes w ++ [payload]).

(** The body of the second effect, run with the state [st] of the render
    that scheduled it. *)
Definition persist_effect (st : AppState) (w : World) : World :=
  if isLoaded st then setItem (encode (todos st)) w else w.

(** The dependency list [[todos, isLoaded]] differs between two renders. *)
Definition deps_changed (old new : AppState) : bool :=
  negb (Nat.eqb (todosRef old) (todosRef new))
  || negb (Bool.eqb (isLoaded old) (isLoaded new)).

(** The render that follows a state change, with its effects: the second
    effect runs again when one of its dependencies changed since the render
    [old]; the first has no dependency and does not run again. *)
Definition rerender (old : AppState) (w : World) : World :=
  if deps_changed old (app w) then persist_effect (app w) w else w.

(** The effects of the first render, in order: the first reads the storage
    and queues its two state updates, the second runs with the state of the
    first render; the queued updates then cause a second render.  [None] when
    the parsed value is not a task list, so that the state leaves its
    declared type. *)
Definition mount (w : World) : option World :=
  match todos_of_json (initial_load (storage w)) with
  | Some l =>
      let st' := setIsLoaded true (setTodos l (app w)) in
      let w1 := persist_effect (app w) w in
      Some (rerender (app w) (with_app st' w1))
  | None => None
  end.

Inductive intent :=
| InputChange (value : jsstring)
| AddTodo (now : Z)
| ToggleTodo (i : Z)
| DeleteTodo (i : Z)
| MoveTodoUp (index : Z)
| MoveTodoDown (index : Z)
| StartEditing (i : Z) (currentText : jsstring)
| EditChange (value : jsstring)
| SaveEdit
| CancelEdit
| ClearAllTodos (confirmed : bool)
| ResetToDefault (confirmed : bool).

Inductive event :=
| Mount
| User (i : intent).

Definition handle (i : intent) (st : AppState) : option AppState :=
  match i with
  | InputChange value => Some (setInputText value st)
  | AddTodo now => Some (addTodo now st)
  | ToggleTodo i => Some (toggleTodo i st)
  | DeleteTodo i => Some (deleteTodo i st)
  | MoveTodoUp index => moveTodoUp index st
  | MoveTodoDown index => moveTodoDown index st
  | StartEditing i currentText => Some (startEditing i currentText st)
  | EditChange value => Some (setEditingText value st)
  | SaveEdit => Some (saveEdit st)
  | CancelEdit => Some (cancelEdit st)
  | ClearAllTodos confirmed => Some (clearAllTodos confirmed st)
  | ResetToDefault confirmed => Some (resetToDefault confirmed st)
  end.

(** One event: its handler, then the render it causes with the effects of
    that render, all before the next event is taken. *)
Definition dispatch (ev : event) (w : World) : option World :=
  match ev with
  | Mount => mount w
  | User i =>
      match handle i (app w) with
      | Some st' => Some (rerender (app w) (with_app st' w))
      | None => None
      end
  end.

Fixpoint run (evs : list event) (w : World) : option World :=
  match evs with
  | [] => Some w
  | ev :: evs' =>
      match dispatch ev w with
      | Some w' => run evs' w'
      | None => None
      end
  end.

(** A page load: the state of the first render over whatever the storage
    holds. *)
Definition fresh_page (saved : option jsstring) : World :=
  mkWorld initialState saved [].

(** ** Key handlers *)

Definition key_Enter : jsstring := [69; 110; 116; 101; 114]%N.
Definition key_Escape : jsstring := [69; 115; 99; 97; 112; 101]%N.

(** [handleKeyPress], on the input for new tasks; [key] is [e.key]. *)
Definition handleKeyPress (key : jsstring) (now : Z) (st : AppState)
  : AppState :=
  if jsstring_eqb key key_Enter then addTodo now st else st.

(** [handleEditKeyPress], on the input of the task being edited. *)
Definition handleEditKeyPress (key : jsstring) (st : AppState) : AppState :=
  if jsstring_eqb key key_Enter then saveEdit st
  else if jsstring_eqb key key_Escape then cancelEdit st
  else st.

(** ** What the render derives from the state *)

Definition completedCount (st : AppState) : nat :=
  length (List.filter (fun todo => completed todo) (todos st)).

Definition totalCount (st : AppState) : nat := length (todos st).

(** The rows drawn by [todos.map((todo, index) => ...)]. *)
Definition rows (st : AppState) : list (Z * Todo) :=
  imap (fun k todo => (Z.of_nat k, todo)) (todos st).

(** [disabled={index === 0}] on the button that calls [moveTodoUp(index)],
    and [disabled={index === todos.length - 1}] on the one that calls
    [moveTodoDown(index)]. *)
Definition moveUp_disabled (index : Z) : bool := index =? 0.

Definition moveDown_disabled (st : AppState) (index : Z) : bool :=
  index =? Z.of_nat (length (todos st)) - 1.

(** [editingId === todo.id]: the row shows the edit input. *)
Definition row_editing (st : AppState) (todo : Todo) : bool :=
  editing_is (editingId st) (id todo).

(** [totalCount > 0], the condition under which the progress bar and the
    buttons for [clearAllTodos] and [resetToDefault] are drawn. *)
Definition show_management (st : AppState) : bool :=
  (0 <? totalCount st)%nat.

(** * Notions used in the statements and proofs *)

(** Decoding a payload at the type of the task list. *)
Definition decode (payload : jsstring) : option (list Todo) :=
  match JSON_parse payload with
  | Some v => todos_of_json v
  | None => None
  end.

(** The shape of an encoded task list, in the words of the data model: an
    array of records with a numeric [id], a string [text] and a boolean
    [completed].  Of a repeated key the last member counts. *)
Fixpoint member (k : jsstring) (m : list (jsstring * json)) : option json :=
  match m with
  | [] => None
  | (k', v) :: m' =>
      match member k m' with
      | Some v' => Some v'
      | None => if jsstring_eqb k' k then Some v else None
      end
  end.

Definition is_number (v : json) : bool :=
  match v with JNum _ | JNumLit _ => true | _ => false end.
Definition is_string (v : json) : bool :=
  match v with JStr _ => true | _ => false end.
Definition is_boolean (v : json) : bool :=
  match v with JBool _ => true | _ => false end.

Definition has_field (k : jsstring) (ok : json -> bool)
           (m : list (jsstring * json)) : bool :=
  match member k m with Some v => ok v | None => false end.

Definition is_task (v : json) : bool :=
  match v with
  | JObj m =>
      has_field key_id is_number m && has_field key_text is_string m
      && has_field key_completed is_boolean m
  | _ => false
  end.

Definition is_task_list (v : json) : bool :=
  match v with JArr l => forallb is_task l | _ => false end.

(** A malformed payload: one that does not parse, or parses to a value of
    another shape. *)
Definition malformed (p : jsstring) : Prop :=
  match JSON_parse p with
  | None => True
  | Some v => is_task_list v = false
  end.

(** What the updaters of [toggleTodo] and [saveEdit] do to one task. *)
Definition flip_completed (todo : Todo) : Todo :=
  mkTodo (id todo) (text todo) (negb (completed todo)).

Definition with_text (s : jsstring) (todo : Todo) : Todo :=
  mkTodo (id todo) s (completed todo).

(** The shape of both updaters: rewrite the tasks that [hit] selects. *)
Definition rewrite_hit (f : Todo -> Todo) (hit : Todo -> bool) (todo : Todo)
  : Todo :=
  if hit todo then f todo else todo.

(** The storage in step with the state, relative to a starting point [w0]:
    untouched while the page has not loaded, and afterwards holding the
    encoding of the current list, which is also the last payload written. *)
Definition in_step (w0 w : World) : Prop :=
  (isLoaded (app w) = false -> writes w = writes w0 /\ storage w = storage w0)
  /\ (isLoaded (app w) = true ->
      storage w = Some (encode (todos (app w))) /\
      exists older,
        writes w = writes w0 ++ older ++ [encode (todos (app w))]).

(** The ids of a list, in order. *)
Definition ids (l : list Todo) : list Z := map id l.

(** What may follow a value in a printed text: nothing, a comma, or a
    closing bracket or brace. *)
Definition delimited (rest : jsstring) : Prop :=
  match rest with
  | [] => True
  | c :: _ => c = 44%N \/ c = 93%N \/ c = 125%N
  end.

(** Values without uninterpreted number literals: what the printer is
    specified on here. *)
Fixpoint canon (v : json) : bool :=
  match v with
  | JNumLit _ => false
  | JArr l => forallb canon l
  | JObj m => forallb (fun kv => canon (snd kv)) m
  | _ => true
  end.

(** Fuel that the descent needs on the printed form of a value. *)
Fixpoint weight (v : json) : nat :=
  match v with
  | JArr l => S (fold_right (fun x acc => S (weight x) + acc) 0 l)%nat
  | JObj m => S (fold_right (fun kv acc => S (weight (snd kv)) + acc) 0 m)%nat
  | _ => 1%nat
  end.

Definition elements_weight (l : list json) : nat :=
  fold_right (fun x acc => S (weight x) + acc)%nat 0%nat l.

Definition members_weight (m : list (jsstring * json)) : nat :=
  fold_right (fun kv acc => S (weight (snd kv)) + acc)%nat 0%nat m.

Definition print_member (kv : jsstring * json) : jsstring :=
  quote (fst kv) ++ 58%N :: JSON_stringify (snd kv).

Definition total_length (parts : list jsstring) : nat :=
  fold_right (fun p acc => S (length p) + acc)%nat 0%nat parts.

(** The payload [[{"id":7}]]. *)
Definition payload_without_fields : jsstring :=
  [91; 123; 34; 105; 100; 34; 58; 55; 125; 93]%N.

(** The default list on screen, with [" Ship it "] typed into the input and
    task 3 being edited with the draft ["  App launched  "]. *)
Definition sample_state : AppState :=
  mkApp defaultTodos 1
        [32; 83; 104; 105; 112; 32; 105; 116; 32]%N true (Some 3)
        [32; 32; 65; 112; 112; 32; 108; 97; 117; 110; 99; 104; 101; 100;
         32; 32]%N.

(** The same with only blanks in the input and in the draft. *)
Definition blank_state : AppState :=
  mkApp defaultTodos 1 [32; 32; 32]%N true (Some 3) [32; 32; 32]%N.

(** The same with the cursor on an id that no task has. *)
Definition dangling_state : AppState :=
  mkApp defaultTodos 1 [] true (Some 99) [120]%N.

(** The payload [not json]. *)
Definition payload_garbage : jsstring :=
  [110; 111; 116; 32; 106; 115; 111; 110]%N.

(** A first visit: the page loads, then a task is typed in and added, task 2
    is toggled and task 1 deleted. *)
Definition sample_session : list event :=
  [Mount;
   User (InputChange [83; 104; 105; 112; 32; 105; 116]%N);
   User (AddTodo 1700000000000);
   User (ToggleTodo 2);
   User (DeleteTodo 1)].

Definition consumes {A} (s : jsstring) (res : result (A * jsstring)) : Prop :=
  match res with
  | Ok (_, r) => (length r < length s)%nat
  | _ => True
  end.

Definition fueled {A} (res : result A) : Prop :=
  match res with OutOfFuel => False | _ => True end.

(** The default list on screen with nothing typed and no edit open. *)
Definition idle_state : AppState :=
  mkApp defaultTodos 1 [] true None [].

(** The editing cursor, when set, holds the id of a task of the list. *)
Definition cursor_ok (st : AppState) : Prop :=
  match editingId st with
  | Some e => e ∈ ids (todos st)
  | None => True
  end.

(** A string with no white space at either end. *)
Definition starts_clean (s : jsstring) : Prop :=
  match s with [] => True | c :: _ => is_white_space c = false end.

Definition trimmed (s : jsstring) : Prop :=
  starts_clean s /\ starts_clean (rev s).

(** Every text of the list is non-empty and trimmed. *)
Definition texts_ok (l : list Todo) : Prop :=
  Forall (fun t => text t <> [] /\ trimmed (text t)) l.

(** What the storage entry would load as, when it is a task list. *)
Definition stored_list (w : World) : option (list Todo) :=
  todos_of_json (initial_load (storage w)).

(** The clock readings of the adds of a session are at least [lo] and
    strictly increasing. *)
Fixpoint clock_advances (lo : Z) (evs : list event) : Prop :=
  match evs with
  | [] => True
  | User (AddTodo now) :: evs' => lo <= now /\ clock_advances (now + 1) evs'
  | _ :: evs' => clock_advances lo evs'
  end.

(** Distinct ids, all below [lo]. *)
Definition ids_below (lo : Z) (l : list Todo) : Prop :=
  NoDup (ids l) /\ forall i, i ∈ ids l -> i < lo.

(** * Properties *)

(** ** Setters and list helpers *)

Lemma nonempty_true (s : jsstring) : nonempty s = true <-> s <> [].
Proof. destruct s; simpl; split; intros; congruence. Qed.

Lemma nonempty_false (s : jsstring) : nonempty s = false <-> s = [].
Proof. destruct s; simpl; split; intros; congruence. Qed.

Section MapById.
Variable f : Todo -> Todo.
Variable hit : Todo -> bool.

Lemma map_hit_lookup (l : list Todo) (k : nat) (t : Todo) :
  l !! k = Some t ->
  map (rewrite_hit f hit) l !! k = Some (rewrite_hit f hit t).
Proof.
  revert k; induction l as [|a l IH]; intros [|k] H; simpl in *;
    try discriminate.
  - now inversion H.
  - now apply IH.
Qed.

Lemma map_hit_none (l : list Todo) :
  (forall t, In t l -> hit t = false) -> map (rewrite_hit f hit) l = l.
Proof.
  induction l as [|a l IH]; intros H; simpl; [reflexivity|].
  unfold rewrite_hit at 1. rewrite (H a) by now left.
  f_equal. apply IH. intros t Ht. apply H. now right.
Qed.

Lemma map_hit_preserves {B} (g : Todo -> B) (l : list Todo) :
  (forall t, g (f t) = g t) -> map g (map (rewrite_hit f hit) l) = map g l.
Proof.
  intros Hg. induction l as [|a l IH]; simpl; [reflexivity|].
  rewrite IH. f_equal. unfold rewrite_hit. destruct (hit a); auto.
Qed.
End MapById.

Lemma filter_sublist {A} (p : A -> bool) (l : list A) :
  sublist (List.filter p l) l.
Proof.
  induction l as [|a l IH]; simpl.
  - constructor.
  - destruct (p a); now constructor.
Qed.

Lemma filter_all {A} (p : A -> bool) (l : list A) :
  (forall x, In x l -> p x = true) -> List.filter p l = l.
Proof.
  induction l as [|a l IH]; intros H; simpl; [reflexivity|].
  rewrite (H a) by now left. f_equal. apply IH. intros x Hx. apply H. now right.
Qed.

Lemma filter_twice {A} (p : A -> bool) (l : list A) :
  List.filter p (List.filter p l) = List.filter p l.
Proof.
  apply filter_all. intros x Hx. apply filter_In in Hx. tauto.
Qed.

(** ** Adding a task *)

(** C2: [addTodo] leaves the list as it is when the trimmed input is empty,
    and otherwise appends exactly one task, with the trimmed input as text
    and [completed = false], so that the length grows by one. *)
Theorem addTodo_spec (now : Z) (st : AppState) :
  (trim (inputText st) = [] -> todos (addTodo now st) = todos st) /\
  (trim (inputText st) <> [] ->
   todos (addTodo now st)
   = todos st ++ [mkTodo now (trim (inputText st)) false] /\
   length (todos (addTodo now st)) = S (length (todos st))).
Proof.
  unfold addTodo. split; intros H.
  - apply nonempty_false in H. now rewrite H.
  - apply nonempty_true in H. rewrite H. simpl. split; [reflexivity|].
    rewrite length_app. simpl. lia.
Qed.

(** ** Toggling a task *)

Lemma flip_completed_twice (t : Todo) : flip_completed (flip_completed t) = t.
Proof. destruct t as [i s c]. unfold flip_completed. simpl. now rewrite negb_involutive. Qed.

(** C5: [toggleTodo i] flips [completed] on the tasks whose id is [i] and
    touches nothing else: ids, texts and positions stay; it changes nothing
    when no task has id [i]; and toggling twice gives the list back. *)
Theorem toggleTodo_spec (i : Z) (st : AppState) :
  (forall k t, todos st !! k = Some t ->
     todos (toggleTodo i st) !! k
     = Some (if id t =? i then flip_completed t else t)) /\
  length (todos (toggleTodo i st)) = length (todos st) /\
  map id (todos (toggleTodo i st)) = map id (todos st) /\
  map text (todos (toggleTodo i st)) = map text (todos st) /\
  ((forall t, In t (todos st) -> id t <> i) ->
     todos (toggleTodo i st) = todos st) /\
  todos (toggleTodo i (toggleTodo i st)) = todos st.
Proof.
  unfold toggleTodo. simpl.
  change (fun todo : Todo =>
            if id todo =? i
            then mkTodo (id todo) (text todo) (negb (completed todo))
            else todo)
    with (rewrite_hit flip_completed (fun todo => id todo =? i)).
  repeat split.
  - intros k t H. now apply map_hit_lookup with (f := flip_completed)
                                              (hit := fun todo => id todo =? i).
  - apply length_map.
  - now apply map_hit_preserves.
  - now apply map_hit_preserves.
  - intros H. apply map_hit_none. intros t Ht. apply Z.eqb_neq. now apply H.
  - rewrite map_map. rewrite <- (map_id (todos st)) at 2.
    apply map_ext. intros [j s c]. unfold rewrite_hit, flip_completed. simpl.
    destruct (j =? i) eqn:E; simpl; [|now rewrite E].
    rewrite E. now rewrite negb_involutive.
Qed.

(** ** Editing a task *)

Lemma saveEdit_clears (st : AppState) :
  editingId (saveEdit st) = None /\ editingText (saveEdit st) = [].
Proof. unfold saveEdit. now split. Qed.

Lemma saveEdit_todos (st : AppState) (e : Z) :
  editingId st = Some e ->
  todos (saveEdit st)
  = if nonempty (trim (editingText st))
    then map (rewrite_hit (with_text (trim (editingText st)))
                          (fun todo => e =? id todo)) (todos st)
    else todos st.
Proof.
  intros He. unfold saveEdit. rewrite He. simpl.
  destruct (nonempty (trim (editingText st))); reflexivity.
Qed.

(** C6: with an editing cursor on id [e], [saveEdit] overwrites the text of
    the tasks with id [e] by the trimmed draft when that is not empty, leaves
    the list as it is when the trimmed draft is empty, and clears the cursor
    either way. *)
Theorem saveEdit_spec (st : AppState) (e : Z) :
  editingId st = Some e ->
  (trim (editingText st) <> [] ->
     length (todos (saveEdit st)) = length (todos st) /\
     forall k t, todos st !! k = Some t ->
       todos (saveEdit st) !! k
       = Some (if id t =? e then with_text (trim (editingText st)) t else t)) /\
  (trim (editingText st) = [] -> todos (saveEdit st) = todos st) /\
  editingId (saveEdit st) = None /\
  editingText (saveEdit st) = [].
Proof.
  intros He. rewrite (saveEdit_todos st e He).
  split; [|split; [|apply saveEdit_clears]].
  - intros H. apply nonempty_true in H. rewrite H. split.
    + apply length_map.
    + intros k t Hk.
      rewrite (map_hit_lookup _ _ _ _ _ Hk). unfold rewrite_hit.
      now rewrite (Z.eqb_sym e).
  - intros H. apply nonempty_false in H. now rewrite H.
Qed.

(** C10: when the cursor holds an id that no task has, [saveEdit] with a
    non-empty trimmed draft leaves the list as it is and clears the cursor. *)
Theorem saveEdit_dangling_cursor (st : AppState) (e : Z) :
  editingId st = Some e ->
  (forall t, In t (todos st) -> id t <> e) ->
  trim (editingText st) <> [] ->
  todos (saveEdit st) = todos st /\
  editingId (saveEdit st) = None /\
  editingText (saveEdit st) = [].
Proof.
  intros He Hno Hd. split; [|apply saveEdit_clears].
  rewrite (saveEdit_todos st e He).
  apply nonempty_true in Hd. rewrite Hd.
  apply map_hit_none. intros t Ht. apply Z.eqb_neq.
  intros ->. now apply (Hno t).
Qed.

(** ** Deleting a task *)

(** C7: [deleteTodo i] removes the tasks with id [i] and keeps the others in
    their order; it changes nothing when no task has id [i], so a second
    [deleteTodo i] changes nothing; the editing cursor is cleared when it
    holds [i] and is left alone otherwise. *)
Theorem deleteTodo_spec (i : Z) (st : AppState) :
  (forall t, In t (todos (deleteTodo i st)) <-> In t (todos st) /\ id t <> i) /\
  sublist (todos (deleteTodo i st)) (todos st) /\
  ((forall t, In t (todos st) -> id t <> i) ->
     todos (deleteTodo i st) = todos st) /\
  todos (deleteTodo i (deleteTodo i st)) = todos (deleteTodo i st) /\
  length (todos (deleteTodo i (deleteTodo i st)))
  = length (todos (deleteTodo i st)) /\
  (editingId st = Some i ->
     editingId (deleteTodo i st) = None /\ editingText (deleteTodo i st) = []) /\
  (editingId st <> Some i ->
     editingId (deleteTodo i st) = editingId st /\
     editingText (deleteTodo i st) = editingText st).
Proof.
  assert (Htodos : forall s, todos (deleteTodo i s)
                     = List.filter (fun todo => negb (id todo =? i)) (todos s)).
  { intros s. unfold deleteTodo.
    destruct (editing_is (editingId s) i); reflexivity. }
  rewrite !Htodos.
  split; [|split; [|split; [|split; [|split; [|split]]]]].
  - intros t. rewrite filter_In, negb_true_iff, Z.eqb_neq. tauto.
  - apply filter_sublist.
  - intros Hno. apply filter_all. intros t Ht.
    apply negb_true_iff, Z.eqb_neq. now apply Hno.
  - apply filter_twice.
  - now rewrite filter_twice.
  - intros He. unfold deleteTodo. rewrite He. simpl. now rewrite Z.eqb_refl.
  - intros He. unfold deleteTodo.
    destruct (editingId st) as [j|] eqn:E; simpl; [|now split].
    destruct (Z.eqb_spec j i) as [->|]; [congruence|now split].
Qed.

(** ** Moving a task *)

Lemma as_todos_map_Some (l : list Todo) : as_todos (map Some l) = Some l.
Proof. induction l as [|a l IH]; simpl; [reflexivity|]. now rewrite IH. Qed.

Lemma swap_entries_in_range (l : list Todo) (i j : nat) (xi xj : Todo) :
  l !! i = Some xi -> l !! j = Some xj ->
  swap_entries (map Some l) (Z.of_nat i) (Z.of_nat j)
  = map Some (<[j := xi]> (<[i := xj]> l)).
Proof.
  intros Hi Hj.
  pose proof (lookup_lt_Some _ _ _ Hi) as Li.
  pose proof (lookup_lt_Some _ _ _ Hj) as Lj.
  change (map Some) with (fmap (M := list) (@Some Todo)).
  unfold swap_entries, arr_get, arr_set.
  rewrite !Nat2Z.id.
  destruct (Z.ltb_spec (Z.of_nat i) 0); [lia|].
  destruct (Z.ltb_spec (Z.of_nat j) 0); [lia|].
  rewrite !list_lookup_fmap, Hi, Hj. simpl.
  rewrite length_fmap.
  destruct (Z.ltb_spec (Z.of_nat i) (Z.of_nat (length l))); [|lia].
  rewrite length_insert, length_fmap.
  destruct (Z.ltb_spec (Z.of_nat j) (Z.of_nat (length l))); [|lia].
  now rewrite !list_fmap_insert.
Qed.

Lemma swapped_lookups (l : list Todo) (i j : nat) (xi xj : Todo) :
  i <> j -> l !! i = Some xi -> l !! j = Some xj ->
  let l' := <[j := xi]> (<[i := xj]> l) in
  length l' = length l /\
  l' !! i = l !! j /\
  l' !! j = l !! i /\
  forall k, k <> i -> k <> j -> l' !! k = l !! k.
Proof.
  intros Hne Hi Hj l'. subst l'.
  pose proof (lookup_lt_Some _ _ _ Hi) as Li.
  pose proof (lookup_lt_Some _ _ _ Hj) as Lj.
  repeat split.
  - now rewrite !length_insert.
  - rewrite list_lookup_insert_ne by congruence.
    rewrite list_lookup_insert_eq by assumption. now rewrite Hj.
  - rewrite list_lookup_insert_eq by now rewrite length_insert.
    now rewrite Hi.
  - intros k Hki Hkj.
    rewrite !list_lookup_insert_ne by congruence. reflexivity.
Qed.

(** C8: [moveTodoUp index] with [0 < index < length] exchanges the tasks at
    [index] and [index - 1] and leaves every other position alone;
    [moveTodoDown index] with [0 <= index < length - 1] does the same with
    [index] and [index + 1]; [moveTodoUp 0] and [moveTodoDown] at the last
    index change nothing. *)
Theorem move_spec (st : AppState) (index : Z) :
  (0 < index < Z.of_nat (length (todos st)) ->
   exists st',
     moveTodoUp index st = Some st' /\
     length (todos st') = length (todos st) /\
     todos st' !! Z.to_nat index = todos st !! Z.to_nat (index - 1) /\
     todos st' !! Z.to_nat (index - 1) = todos st !! Z.to_nat index /\
     forall k, k <> Z.to_nat index -> k <> Z.to_nat (index - 1) ->
               todos st' !! k = todos st !! k) /\
  (0 <= index < Z.of_nat (length (todos st)) - 1 ->
   exists st',
     moveTodoDown index st = Some st' /\
     length (todos st') = length (todos st) /\
     todos st' !! Z.to_nat index = todos st !! Z.to_nat (index + 1) /\
     todos st' !! Z.to_nat (index + 1) = todos st !! Z.to_nat index /\
     forall k, k <> Z.to_nat index -> k <> Z.to_nat (index + 1) ->
               todos st' !! k = todos st !! k) /\
  moveTodoUp 0 st = Some st /\
  moveTodoDown (Z.of_nat (length (todos st)) - 1) st = Some st.
Proof.
  assert (Hswap : forall i j : nat,
             i <> j -> (i < length (todos st))%nat ->
             (j < length (todos st))%nat ->
             exists l',
               as_todos (swap_entries (map Some (todos st))
                                      (Z.of_nat i) (Z.of_nat j)) = Some l' /\
               length l' = length (todos st) /\
               l' !! i = todos st !! j /\
               l' !! j = todos st !! i /\
               forall k, k <> i -> k <> j -> l' !! k = todos st !! k).
  { intros i j Hne Li Lj.
    destruct (lookup_lt_is_Some_2 _ _ Li) as [xi Hi].
    destruct (lookup_lt_is_Some_2 _ _ Lj) as [xj Hj].
    exists (<[j := xi]> (<[i := xj]> (todos st))).
    rewrite (swap_entries_in_range _ _ _ _ _ Hi Hj), as_todos_map_Some.
    split; [reflexivity|]. now apply swapped_lookups. }
  split; [|split; [|split]].
  - intros Hr.
    destruct (Hswap (Z.to_nat index) (Z.to_nat (index - 1)))
      as (l' & Hl' & Hlen & H1 & H2 & H3); try lia.
    rewrite !Z2Nat.id in Hl' by lia.
    exists (setTodos l' st). unfold moveTodoUp, moveTodoUp_array.
    destruct (Z.ltb_spec 0 index); [|lia].
    rewrite Hl'. simpl. auto.
  - intros Hr.
    destruct (Hswap (Z.to_nat index) (Z.to_nat (index + 1)))
      as (l' & Hl' & Hlen & H1 & H2 & H3); try lia.
    rewrite !Z2Nat.id in Hl' by lia.
    exists (setTodos l' st). unfold moveTodoDown, moveTodoDown_array.
    destruct (Z.ltb_spec index (Z.of_nat (length (todos st)) - 1)); [|lia].
    rewrite Hl'. simpl. auto.
  - reflexivity.
  - unfold moveTodoDown. now rewrite Z.ltb_irrefl.
Qed.

(** ** JSON: printing then parsing *)

Lemma delimited_not_digit (rest : jsstring) :
  delimited rest ->
  match rest with [] => True | c :: _ => is_digit c = false end.
Proof.
  destruct rest as [|c r]; simpl; [trivial|].
  intros [->| [->| ->]]; reflexivity.
Qed.

Lemma scan_digits_print (u : Decimal.uint) (rest : jsstring) :
  match rest with [] => True | c :: _ => is_digit c = false end ->
  scan_digits (print_uint u ++ rest) = (u, rest).
Proof.
  intros Hrest.
  induction u; simpl;
    try (rewrite IHu; reflexivity).
  destruct rest as [|c r]; simpl; [reflexivity|]. now rewrite Hrest.
Qed.

Lemma scan_frac_delimited (rest : jsstring) :
  delimited rest -> scan_frac rest = Some (false, rest).
Proof.
  destruct rest as [|c r]; simpl; [reflexivity|].
  intros [->| [->| ->]]; reflexivity.
Qed.

Lemma scan_exp_delimited (rest : jsstring) :
  delimited rest -> scan_exp rest = Some (false, rest).
Proof.
  destruct rest as [|c r]; simpl; [reflexivity|].
  intros [->| [->| ->]]; reflexivity.
Qed.

(** The decimal digits of a positive number do not start with [0]. *)
Lemma to_uint_head (p : positive) :
  match Pos.to_uint p with
  | Decimal.Nil | Decimal.D0 _ => False
  | _ => True
  end.
Proof.
  pose proof (Unsigned.to_uint_nonnil p) as Hnil.
  pose proof (Unsigned.to_uint_nonzero p) as Hz.
  pose proof (Unsigned.to_of (Pos.to_uint p)) as Hto.
  rewrite Unsigned.of_to in Hto. simpl in Hto.
  destruct (Pos.to_uint p) as [|u| | | | | | | | |] eqn:E; try exact I.
  - now apply Hnil.
  - rewrite unorm_D0 in Hto.
    destruct (Nat.eq_dec (Decimal.nb_digits u) 0%nat) as [H0|H0].
    + apply nb_digits_0 in H0. subst u. now apply Hz.
    + apply nb_digits_n0, nb_digits_unorm in H0.
      rewrite <- Hto in H0. simpl in H0. lia.
Qed.

Lemma scan_int_print (p : positive) (rest : jsstring) :
  delimited rest ->
  scan_int (print_uint (Pos.to_uint p) ++ rest) = Some (Pos.to_uint p, rest)
  /\ exists c r, print_uint (Pos.to_uint p) = c :: r
                 /\ is_digit c = true /\ c <> 48%N.
Proof.
  intros Hrest. apply delimited_not_digit in Hrest.
  pose proof (to_uint_head p) as Hh.
  pose proof (scan_digits_print (Pos.to_uint p) rest Hrest) as Hs.
  destruct (Pos.to_uint p) eqn:E; try contradiction;
    (split; [unfold scan_int; cbn [print_uint app];
             cbn [print_uint app] in Hs; rewrite Hs; reflexivity
            | eexists _, _; cbn [print_uint];
              split; [reflexivity|split; [reflexivity|discriminate]]]).
Qed.

Lemma parse_number_print (z : Z) (rest : jsstring) :
  delimited rest -> parse_number (print_Z z ++ rest) = Ok (JNum z, rest).
Proof.
  intros Hrest.
  pose proof (DecimalZ.of_to z) as Hz.
  unfold print_Z. destruct z as [|p|p]; simpl Z.to_int in *.
  - unfold parse_number. simpl.
    rewrite (scan_frac_delimited _ Hrest), (scan_exp_delimited _ Hrest).
    reflexivity.
  - destruct (scan_int_print p rest Hrest) as [Hs (c & r & Hc & Hd & Hn)].
    unfold parse_number. rewrite Hc in *.
    change ((c :: r) ++ rest) with (c :: (r ++ rest)) in *.
    cbv beta iota.
    replace (c =? 45)%N with false
      by (symmetry; apply N.eqb_neq; intros ->; discriminate).
    rewrite Hs, (scan_frac_delimited _ Hrest), (scan_exp_delimited _ Hrest).
    simpl orb. cbv iota. now rewrite Hz.
  - destruct (scan_int_print p rest Hrest) as [Hs _].
    unfold parse_number.
    change ((45%N :: print_uint (Pos.to_uint p)) ++ rest)
      with (45%N :: (print_uint (Pos.to_uint p) ++ rest)).
    cbv beta iota. rewrite N.eqb_refl.
    rewrite Hs, (scan_frac_delimited _ Hrest), (scan_exp_delimited _ Hrest).
    simpl orb. cbv iota. now rewrite Hz.
Qed.

Lemma hex_value_digit (n : N) :
  (n < 16)%N -> hex_value (hex_digit n) = Some n.
Proof.
  intros H. destruct n as [|p]; [reflexivity|].
  do 4 (try (destruct p as [p|p|]; try reflexivity)); lia.
Qed.

Lemma hex_digits_value (c : N) :
  (c < 65536)%N ->
  ((c / 4096 mod 16) * 4096 + (c / 256 mod 16) * 256
   + (c / 16 mod 16) * 16 + c mod 16 = c)%N.
Proof.
  intros H.
  replace (c / 4096)%N with (c / 16 / 16 / 16)%N
    by (rewrite !N.Div0.div_div; reflexivity).
  replace (c / 256)%N with (c / 16 / 16)%N
    by (rewrite !N.Div0.div_div; reflexivity).
  pose proof (N.div_mod c 16 ltac:(discriminate)) as E0.
  pose proof (N.div_mod (c / 16) 16 ltac:(discriminate)) as E1.
  pose proof (N.div_mod (c / 16 / 16) 16 ltac:(discriminate)) as E2.
  pose proof (N.div_mod (c / 16 / 16 / 16) 16 ltac:(discriminate)) as E3.
  pose proof (N.mod_lt c 16 ltac:(discriminate)) as L0.
  pose proof (N.mod_lt (c / 16) 16 ltac:(discriminate)) as L1.
  pose proof (N.mod_lt (c / 16 / 16) 16 ltac:(discriminate)) as L2.
  pose proof (N.mod_lt (c / 16 / 16 / 16) 16 ltac:(discriminate)) as L3.
  generalize dependent (c / 16 / 16 / 16 / 16)%N. intros q4.
  generalize dependent (c / 16 / 16 / 16 mod 16)%N. intros r3.
  generalize dependent (c / 16 / 16 / 16)%N. intros q3.
  generalize dependent (c / 16 / 16 mod 16)%N. intros r2.
  generalize dependent (c / 16 / 16)%N. intros q2.
  generalize dependent (c / 16 mod 16)%N. intros r1.
  generalize dependent (c / 16)%N. intros q1.
  generalize dependent (c mod 16)%N. intros r0.
  intros. lia.
Qed.

Lemma hex4_digits (c : N) :
  (c < 65536)%N ->
  hex4 (hex_digit (c / 4096 mod 16)) (hex_digit (c / 256 mod 16))
       (hex_digit (c / 16 mod 16)) (hex_digit (c mod 16)) = Some c.
Proof.
  intros H. unfold hex4.
  rewrite !hex_value_digit by (apply N.mod_lt; discriminate).
  f_equal. now apply hex_digits_value.
Qed.

Lemma parse_escape_eq (h1 h2 h3 h4 : N) (tail : jsstring) :
  parse_string_body (92%N :: 117%N :: h1 :: h2 :: h3 :: h4 :: tail)
  = match hex4 h1 h2 h3 h4 with
    | Some u => rmap (consl u) (parse_string_body tail)
    | None => SyntaxError
    end.
Proof. reflexivity. Qed.

Lemma parse_unicode_escape (c : N) (tail : jsstring) :
  (c < 65536)%N ->
  parse_string_body (unicode_escape c ++ tail)
  = rmap (consl c) (parse_string_body tail).
Proof.
  intros H. unfold unicode_escape.
  rewrite <- !app_comm_cons, app_nil_l, parse_escape_eq.
  now rewrite hex4_digits.
Qed.

Lemma parse_raw (c : N) (tail : jsstring) :
  c <> 34%N -> c <> 92%N -> (32 <= c)%N ->
  parse_string_body (c :: tail) = rmap (consl c) (parse_string_body tail).
Proof.
  intros H1 H2 H3. cbn [parse_string_body].
  rewrite (proj2 (N.eqb_neq c 34) H1), (proj2 (N.eqb_neq c 92) H2).
  now rewrite (proj2 (N.ltb_ge c 32) H3).
Qed.

Lemma surrogate_bounds (c : N) :
  is_high_surrogate c = true \/ is_low_surrogate c = true ->
  (c < 65536 /\ 32 <= c /\ c <> 34 /\ c <> 92)%N.
Proof.
  unfold is_high_surrogate, is_low_surrogate.
  intros [H|H]; apply andb_prop in H; destruct H as [H1 H2];
    apply N.leb_le in H1, H2; lia.
Qed.

Lemma quote_body_cons (c : N) (r : jsstring) :
  quote_body (c :: r)
  = (if c =? 8 then 92 :: 98 :: quote_body r
     else if c =? 9 then 92 :: 116 :: quote_body r
     else if c =? 10 then 92 :: 110 :: quote_body r
     else if c =? 12 then 92 :: 102 :: quote_body r
     else if c =? 13 then 92 :: 114 :: quote_body r
     else if c =? 34 then 92 :: 34 :: quote_body r
     else if c =? 92 then 92 :: 92 :: quote_body r
     else if c <? 32 then unicode_escape c ++ quote_body r
     else if is_high_surrogate c then
       match r with
       | d :: r' =>
           if is_low_surrogate d then c :: d :: quote_body r'
           else unicode_escape c ++ quote_body r
       | [] => unicode_escape c
       end
     else if is_low_surrogate c then unicode_escape c ++ quote_body r
     else c :: quote_body r)%N.
Proof. reflexivity. Qed.

(** A printed string body, closed by its quote, parses back to the string. *)
Lemma parse_string_body_quote (s rest : jsstring) :
  parse_string_body (quote_body s ++ 34%N :: rest) = Ok (s, rest).
Proof.
  remember (length s) as n eqn:Hn.
  assert (Hle : (length s <= n)%nat) by lia. clear Hn.
  revert s Hle. induction n as [|n IH]; intros s Hle.
  - destruct s; [reflexivity|simpl in Hle; lia].
  - destruct s as [|c r]; [reflexivity|]. simpl in Hle.
    assert (IHr : parse_string_body (quote_body r ++ 34%N :: rest)
                  = Ok (r, rest)) by (apply IH; lia).
    rewrite quote_body_cons.
    destruct (N.eqb_spec c 8) as [->|H8]; [simpl; now rewrite IHr|].
    destruct (N.eqb_spec c 9) as [->|H9]; [simpl; now rewrite IHr|].
    destruct (N.eqb_spec c 10) as [->|H10]; [simpl; now rewrite IHr|].
    destruct (N.eqb_spec c 12) as [->|H12]; [simpl; now rewrite IHr|].
    destruct (N.eqb_spec c 13) as [->|H13]; [simpl; now rewrite IHr|].
    destruct (N.eqb_spec c 34) as [->|H34]; [simpl; now rewrite IHr|].
    destruct (N.eqb_spec c 92) as [->|H92]; [simpl; now rewrite IHr|].
    destruct (N.ltb_spec c 32) as [Hlt|Hge].
    { rewrite <- app_assoc, parse_unicode_escape by lia. now rewrite IHr. }
    destruct (is_high_surrogate c) eqn:Hh.
    { destruct (surrogate_bounds c (or_introl Hh)) as (B1 & B2 & B3 & B4).
      destruct r as [|d r'].
      - rewrite parse_unicode_escape by assumption. reflexivity.
      - destruct (is_low_surrogate d) eqn:Hl.
        + destruct (surrogate_bounds d (or_intror Hl)) as (D1 & D2 & D3 & D4).
          change ((c :: d :: quote_body r') ++ 34%N :: rest)
            with (c :: d :: (quote_body r' ++ 34%N :: rest)).
          rewrite parse_raw by assumption.
          rewrite parse_raw by assumption.
          rewrite IH by (simpl in Hle; lia). reflexivity.
        + rewrite <- app_assoc, parse_unicode_escape by assumption.
          now rewrite IHr. }
    destruct (is_low_surrogate c) eqn:Hl.
    { destruct (surrogate_bounds c (or_intror Hl)) as (B1 & B2 & B3 & B4).
      rewrite <- app_assoc, parse_unicode_escape by assumption.
      now rewrite IHr. }
    change ((c :: quote_body r) ++ 34%N :: rest)
      with (c :: (quote_body r ++ 34%N :: rest)).
    rewrite parse_raw by assumption. now rewrite IHr.
Qed.

Lemma parse_string_open (r : jsstring) :
  parse_string (34%N :: r) = parse_string_body r.
Proof. reflexivity. Qed.

Lemma parse_string_quote (s rest : jsstring) :
  parse_string (quote s ++ rest) = Ok (s, rest).
Proof.
  unfold quote.
  rewrite <- app_comm_cons, parse_string_open, <- app_assoc.
  apply parse_string_body_quote.
Qed.

Lemma skip_ws_head (c : N) (r : jsstring) :
  is_json_ws c = false -> skip_ws (c :: r) = c :: r.
Proof. intros H. simpl. now rewrite H. Qed.

Lemma parse_value_open_array (f : nat) (r : jsstring) :
  parse_value (S f) (91%N :: r)
  = match skip_ws r with
    | d :: r' =>
        if (d =? 93)%N then Ok (JArr [], r')
        else rmap (fun p => (JArr (fst p), snd p)) (parse_elements f r)
    | [] => SyntaxError
    end.
Proof. reflexivity. Qed.

Lemma parse_value_open_object (f : nat) (r : jsstring) :
  parse_value (S f) (123%N :: r)
  = match skip_ws r with
    | d :: r' =>
        if (d =? 125)%N then Ok (JObj [], r')
        else rmap (fun p => (JObj (fst p), snd p)) (parse_members f r)
    | [] => SyntaxError
    end.
Proof. reflexivity. Qed.

Lemma parse_value_open_quote (f : nat) (r : jsstring) :
  parse_value (S f) (34%N :: r)
  = rmap (fun p => (JStr (fst p), snd p)) (parse_string_body r).
Proof. reflexivity. Qed.

Lemma parse_elements_eq (f : nat) (s : jsstring) :
  parse_elements (S f) s
  = match parse_value f s with
    | Ok (v, r) =>
        match skip_ws r with
        | c :: r' =>
            if (c =? 44)%N then
              rmap (fun p => (v :: fst p, snd p)) (parse_elements f r')
            else if (c =? 93)%N then Ok ([v], r')
            else SyntaxError
        | [] => SyntaxError
        end
    | SyntaxError => SyntaxError
    | OutOfFuel => OutOfFuel
    end.
Proof. reflexivity. Qed.

Lemma parse_members_eq (f : nat) (s : jsstring) :
  parse_members (S f) s
  = match parse_string (skip_ws s) with
    | Ok (k, r) =>
        match skip_ws r with
        | c :: r1 =>
            if (c =? 58)%N then
              match parse_value f r1 with
              | Ok (v, r2) =>
                  match skip_ws r2 with
                  | d :: r3 =>
                      if (d =? 44)%N then
                        rmap (fun p => ((k, v) :: fst p, snd p))
                             (parse_members f r3)
                      else if (d =? 125)%N then Ok ([(k, v)], r3)
                      else SyntaxError
                  | [] => SyntaxError
                  end
              | SyntaxError => SyntaxError
              | OutOfFuel => OutOfFuel
              end
            else SyntaxError
        | [] => SyntaxError
        end
    | SyntaxError => SyntaxError
    | OutOfFuel => OutOfFuel
    end.
Proof. reflexivity. Qed.

Lemma parse_value_number_head (f : nat) (c : N) (r : jsstring) :
  c = 45%N \/ is_digit c = true ->
  parse_value (S f) (c :: r) = parse_number (c :: r).
Proof.
  intros [->|H]; [reflexivity|].
  unfold is_digit in H. apply andb_prop in H. destruct H as [H1 H2].
  apply N.leb_le in H1, H2.
  assert (E : (c = 48 \/ c = 49 \/ c = 50 \/ c = 51 \/ c = 52 \/ c = 53
               \/ c = 54 \/ c = 55 \/ c = 56 \/ c = 57)%N) by lia.
  repeat (destruct E as [->|E]; [reflexivity|]). now subst.
Qed.

Lemma print_Z_head (z : Z) :
  exists c r, print_Z z = c :: r /\ (c = 45%N \/ is_digit c = true).
Proof.
  unfold print_Z. destruct z as [|p|p]; simpl Z.to_int.
  - eexists _, _. split; [reflexivity|]. now right.
  - destruct (scan_int_print p [] I) as [_ (c & r & Hc & Hd & _)].
    exists c, r. split; [exact Hc|now right].
  - eexists _, _. split; [reflexivity|]. now left.
Qed.

(** The first character of a printed value is neither white space nor a
    closing bracket or brace. *)
Lemma print_head (v : json) :
  canon v = true ->
  exists c r, JSON_stringify v = c :: r /\
              is_json_ws c = false /\ c <> 93%N /\ c <> 125%N.
Proof.
  destruct v as [|[|]|z|lit|s|l|m]; intros Hc; try discriminate;
    try (eexists _, _; split; [reflexivity|];
         split; [reflexivity|split; discriminate]).
  destruct (print_Z_head z) as (c & r & E & [->|Hd]).
  - exists 45%N, r. split; [exact E|]. split; [reflexivity|split; discriminate].
  - exists c, r. split; [exact E|].
    unfold is_digit in Hd. apply andb_prop in Hd. destruct Hd as [H1 H2].
    apply N.leb_le in H1, H2.
    split; [|split; lia].
    unfold is_json_ws.
    repeat (apply orb_false_intro); apply N.eqb_neq; lia.
Qed.

Lemma stringify_arr (l : list json) :
  JSON_stringify (JArr l) = 91%N :: join_comma (map JSON_stringify l) ++ [93%N].
Proof. reflexivity. Qed.

Lemma stringify_obj (m : list (jsstring * json)) :
  JSON_stringify (JObj m) = 123%N :: join_comma (map print_member m) ++ [125%N].
Proof. reflexivity. Qed.

Lemma join_comma_cons2 (p q : jsstring) (ps : list jsstring) :
  join_comma (p :: q :: ps) = p ++ 44%N :: join_comma (q :: ps).
Proof. reflexivity. Qed.

Lemma skip_ws_quote (k r : jsstring) : skip_ws (quote k ++ r) = quote k ++ r.
Proof. unfold quote. rewrite <- app_comm_cons. now apply skip_ws_head. Qed.

Lemma print_member_app (k : jsstring) (v : json) (rest : jsstring) :
  print_member (k, v) ++ rest
  = quote k ++ 58%N :: (JSON_stringify v ++ rest).
Proof. unfold print_member. simpl. now rewrite <- app_assoc. Qed.

Section Descent.
Variable n : nat.
Hypothesis IHv :
  forall v, (weight v <= n)%nat -> canon v = true ->
  forall f rest, (weight v <= f)%nat -> delimited rest ->
  parse_value f (JSON_stringify v ++ rest) = Ok (v, rest).

Lemma parse_elements_print (l : list json) :
  l <> [] ->
  Forall (fun v => (weight v <= n)%nat /\ canon v = true) l ->
  forall f rest, (elements_weight l <= f)%nat ->
  parse_elements f (join_comma (map JSON_stringify l) ++ 93%N :: rest)
  = Ok (l, rest).
Proof.
  induction l as [|v l IH]; [congruence|].
  intros _ HF f rest Hf.
  inversion HF as [|? ? [Hw Hc] HF']; subst.
  destruct f as [|f]; [simpl in Hf; lia|].
  simpl in Hf. rewrite parse_elements_eq.
  destruct l as [|v2 l'].
  - simpl map. simpl join_comma.
    rewrite IHv; [|assumption|assumption|lia|simpl; auto].
    rewrite skip_ws_head by reflexivity.
    reflexivity.
  - simpl map. rewrite join_comma_cons2, <- app_assoc, <- app_comm_cons.
    rewrite IHv; [|assumption|assumption|lia|simpl; auto].
    rewrite skip_ws_head by reflexivity. rewrite N.eqb_refl.
    change (JSON_stringify v2 :: map JSON_stringify l')
      with (map JSON_stringify (v2 :: l')).
    rewrite IH; [reflexivity|discriminate|assumption|].
    fold (elements_weight (v2 :: l')) in Hf. lia.
Qed.

Lemma parse_members_print (m : list (jsstring * json)) :
  m <> [] ->
  Forall (fun kv => (weight (snd kv) <= n)%nat /\ canon (snd kv) = true) m ->
  forall f rest, (members_weight m <= f)%nat ->
  parse_members f (join_comma (map print_member m) ++ 125%N :: rest)
  = Ok (m, rest).
Proof.
  induction m as [|[k v] m IH]; [congruence|].
  intros _ HF f rest Hf.
  inversion HF as [|? ? [Hw Hc] HF']; subst. simpl in Hw, Hc.
  destruct f as [|f]; [simpl in Hf; lia|].
  simpl in Hf. rewrite parse_members_eq.
  destruct m as [|kv2 m'].
  - simpl map. simpl join_comma.
    rewrite print_member_app, skip_ws_quote, parse_string_quote.
    rewrite skip_ws_head by reflexivity. rewrite N.eqb_refl.
    rewrite IHv; [|assumption|assumption|lia|simpl; auto].
    rewrite skip_ws_head by reflexivity.
    reflexivity.
  - simpl map. rewrite join_comma_cons2, <- app_assoc, <- app_comm_cons.
    rewrite print_member_app, skip_ws_quote, parse_string_quote.
    rewrite skip_ws_head by reflexivity. rewrite N.eqb_refl.
    rewrite IHv; [|assumption|assumption|lia|simpl; auto].
    rewrite skip_ws_head by reflexivity. rewrite N.eqb_refl.
    change (print_member kv2 :: map print_member m')
      with (map print_member (kv2 :: m')).
    rewrite IH; [reflexivity|discriminate|assumption|].
    fold (members_weight (kv2 :: m')) in Hf. lia.
Qed.
End Descent.

Lemma join_comma_head (c : N) (r : jsstring) (ps : list jsstring) :
  exists t, join_comma ((c :: r) :: ps) = c :: t.
Proof. destruct ps; simpl; eauto. Qed.

Lemma elements_weight_each (l : list json) :
  Forall (fun v => (weight v < elements_weight l)%nat) l.
Proof.
  induction l as [|v l IH]; constructor; simpl.
  - lia.
  - eapply List.Forall_impl; [|exact IH]. simpl. intros; lia.
Qed.

Lemma members_weight_each (m : list (jsstring * json)) :
  Forall (fun kv => (weight (snd kv) < members_weight m)%nat) m.
Proof.
  induction m as [|kv m IH]; constructor; simpl.
  - lia.
  - eapply List.Forall_impl; [|exact IH]. simpl. intros; lia.
Qed.

Lemma forallb_Forall_true {A} (p : A -> bool) (l : list A) :
  forallb p l = true -> Forall (fun x => p x = true) l.
Proof.
  induction l as [|a l IH]; simpl; intros H; constructor;
    apply andb_prop in H; tauto.
Qed.

Lemma Forall_both {A} (P Q : A -> Prop) (l : list A) :
  Forall P l -> Forall Q l -> Forall (fun x => P x /\ Q x) l.
Proof. induction 1; inversion 1; subst; constructor; auto. Qed.

(** Printing a value and parsing the text gives the value back, whatever
    delimiter follows, as soon as the fuel covers the weight of the value. *)
Lemma parse_value_print (n : nat) :
  forall v, (weight v <= n)%nat -> canon v = true ->
  forall f rest, (weight v <= f)%nat -> delimited rest ->
  parse_value f (JSON_stringify v ++ rest) = Ok (v, rest).
Proof.
  induction n as [|n IH]; intros v Hn Hc f rest Hf Hrest.
  { destruct v; simpl in Hn; lia. }
  destruct f as [|f]; [destruct v; simpl in Hf; lia|].
  destruct v as [|[|]|z|lit|s|l|m].
  - reflexivity.
  - reflexivity.
  - reflexivity.
  - destruct (print_Z_head z) as (c & r & E & Hhead).
    simpl JSON_stringify. rewrite <- (parse_number_print z rest Hrest).
    rewrite E, <- app_comm_cons. now apply parse_value_number_head.
  - discriminate Hc.
  - simpl JSON_stringify. unfold quote.
    rewrite <- app_comm_cons, parse_value_open_quote, <- app_assoc.
    change ([34%N] ++ rest) with (34%N :: rest).
    now rewrite parse_string_body_quote.
  - rewrite stringify_arr, <- app_comm_cons, parse_value_open_array.
    rewrite <- app_assoc. change ([93%N] ++ rest) with (93%N :: rest).
    destruct l as [|v1 l']; [reflexivity|].
    simpl in Hc. apply andb_prop in Hc. destruct Hc as [Hc1 Hc'].
    destruct (print_head v1 Hc1) as (c & r & E & Hws & H93 & _).
    destruct (join_comma_head c r (map JSON_stringify l')) as [t Et].
    remember (join_comma (map JSON_stringify (v1 :: l')) ++ 93%N :: rest)
      as body eqn:Hbody.
    assert (Hsk : skip_ws body = c :: (t ++ 93%N :: rest)).
    { subst body. simpl map. rewrite E, Et, <- app_comm_cons.
      now apply skip_ws_head. }
    rewrite Hsk, (proj2 (N.eqb_neq c 93) H93). subst body.
    change (weight (JArr (v1 :: l')))
      with (S (elements_weight (v1 :: l'))) in Hn, Hf.
    rewrite (parse_elements_print n IH); [reflexivity|discriminate| |lia].
    apply Forall_both.
    + eapply List.Forall_impl; [|apply elements_weight_each].
      cbv beta. intros; lia.
    + apply forallb_Forall_true. simpl. now rewrite Hc1.
  - rewrite stringify_obj, <- app_comm_cons, parse_value_open_object.
    rewrite <- app_assoc. change ([125%N] ++ rest) with (125%N :: rest).
    destruct m as [|[k1 v1] m']; [reflexivity|].
    simpl in Hc. apply andb_prop in Hc. destruct Hc as [Hc1 Hc'].
    remember (join_comma (map print_member ((k1, v1) :: m')) ++ 125%N :: rest)
      as body eqn:Hbody.
    assert (Hsk : exists t, skip_ws body = 34%N :: t).
    { subst body. simpl map. unfold print_member at 1, quote. simpl fst.
      rewrite <- !app_comm_cons.
      destruct (join_comma_head 34%N
                  ((quote_body k1 ++ [34%N]) ++ 58%N :: JSON_stringify v1)
                  (map print_member m')) as [t Et].
      simpl snd. rewrite Et, <- app_comm_cons.
      eexists. now apply skip_ws_head. }
    destruct Hsk as [t Hsk]. rewrite Hsk.
    change (34 =? 125)%N with false. cbv iota. subst body.
    change (weight (JObj ((k1, v1) :: m')))
      with (S (members_weight ((k1, v1) :: m'))) in Hn, Hf.
    rewrite (parse_members_print n IH); [reflexivity|discriminate| |lia].
    apply Forall_both.
    + eapply List.Forall_impl; [|apply members_weight_each].
      cbv beta. intros; lia.
    + apply (forallb_Forall_true (fun kv => canon (snd kv))).
      simpl. now rewrite Hc1.
Qed.

Lemma total_length_cons (p : jsstring) (ps : list jsstring) :
  total_length (p :: ps) = (S (length p) + total_length ps)%nat.
Proof. reflexivity. Qed.

Lemma join_comma_length (parts : list jsstring) :
  (total_length parts <= S (length (join_comma parts)))%nat.
Proof.
  induction parts as [|p ps IH]; [simpl; lia|].
  destruct ps as [|q ps'].
  - simpl. lia.
  - rewrite join_comma_cons2, length_app, length_cons.
    rewrite total_length_cons. lia.
Qed.

Lemma elements_weight_cons (v : json) (l : list json) :
  elements_weight (v :: l) = (S (weight v) + elements_weight l)%nat.
Proof. reflexivity. Qed.

Lemma members_weight_cons (kv : jsstring * json) (m : list (jsstring * json)) :
  members_weight (kv :: m) = (S (weight (snd kv)) + members_weight m)%nat.
Proof. reflexivity. Qed.

Lemma elements_weight_le_total (l : list json) :
  Forall (fun v => (weight v <= length (JSON_stringify v))%nat) l ->
  (elements_weight l <= total_length (map JSON_stringify l))%nat.
Proof.
  induction 1 as [|v l Hv _ IH]; [simpl; lia|].
  simpl map. rewrite elements_weight_cons, total_length_cons. lia.
Qed.

Lemma members_weight_le_total (m : list (jsstring * json)) :
  Forall (fun kv => (weight (snd kv) <= length (JSON_stringify (snd kv)))%nat) m ->
  (members_weight m <= total_length (map print_member m))%nat.
Proof.
  induction 1 as [|kv m Hv _ IH]; [simpl; lia|].
  simpl map. rewrite members_weight_cons, total_length_cons.
  unfold print_member at 1. rewrite length_app, length_cons. lia.
Qed.

Lemma weight_le_length (n : nat) :
  forall v, (weight v <= n)%nat -> canon v = true ->
  (weight v <= length (JSON_stringify v))%nat.
Proof.
  induction n as [|n IH]; intros v Hn Hc.
  { destruct v; simpl in Hn; lia. }
  destruct v as [|[|]|z|lit|s|l|m]; try (simpl; lia).
  - destruct (print_Z_head z) as (c & r & E & _).
    simpl. rewrite E. simpl. lia.
  - discriminate Hc.
  - rewrite stringify_arr, length_cons, length_app.
    change (weight (JArr l)) with (S (elements_weight l)) in *.
    pose proof (join_comma_length (map JSON_stringify l)) as Hj.
    assert (Hw : (elements_weight l
                  <= total_length (map JSON_stringify l))%nat).
    { apply elements_weight_le_total.
      simpl in Hc. apply forallb_Forall_true in Hc.
      pose proof (Forall_both _ _ _ (elements_weight_each l) Hc) as Hb.
      eapply List.Forall_impl; [|exact Hb].
      cbv beta. intros v [Hv1 Hv2]. apply IH; [lia|assumption]. }
    simpl length. lia.
  - rewrite stringify_obj, length_cons, length_app.
    change (weight (JObj m)) with (S (members_weight m)) in *.
    pose proof (join_comma_length (map print_member m)) as Hj.
    assert (Hw : (members_weight m <= total_length (map print_member m))%nat).
    { apply members_weight_le_total.
      simpl in Hc.
      apply (forallb_Forall_true (fun kv => canon (snd kv))) in Hc.
      pose proof (Forall_both _ _ _ (members_weight_each m) Hc) as Hb.
      eapply List.Forall_impl; [|exact Hb].
      cbv beta. intros kv [Hv1 Hv2]. apply IH; [lia|assumption]. }
    simpl length. lia.
Qed.

(** [JSON.parse (JSON.stringify v)] is [v]. *)
Lemma JSON_parse_stringify (v : json) :
  canon v = true -> JSON_parse (JSON_stringify v) = Some v.
Proof.
  intros Hc. unfold JSON_parse.
  pose proof (weight_le_length (weight v) v (le_n _) Hc) as Hw.
  pose proof (parse_value_print (weight v) v (le_n _) Hc
                (parse_fuel (JSON_stringify v)) []) as Hp.
  rewrite app_nil_r in Hp. rewrite Hp; [reflexivity| |exact I].
  unfold parse_fuel. lia.
Qed.

(** ** JSON: the parser's fuel *)

Lemma consumes_rmap {A B} (g : A -> B) (s : jsstring)
      (res : result (A * jsstring)) :
  consumes s res -> consumes s (rmap (fun p => (g (fst p), snd p)) res).
Proof. destruct res as [[a r]| |]; simpl; auto. Qed.

Lemma fueled_rmap {A B} (g : A -> B) (res : result A) :
  fueled res -> fueled (rmap g res).
Proof. destruct res; simpl; auto. Qed.

Lemma consumes_weaken {A} (s s' : jsstring) (res : result (A * jsstring)) :
  (length s <= length s')%nat -> consumes s res -> consumes s' res.
Proof. destruct res as [[a r]| |]; simpl; auto. lia. Qed.

Lemma skip_ws_length (s : jsstring) : (length (skip_ws s) <= length s)%nat.
Proof.
  induction s as [|c s IH]; simpl; [lia|].
  destruct (is_json_ws c); simpl; lia.
Qed.

Lemma scan_digits_length (s : jsstring) :
  (length (snd (scan_digits s)) <= length s)%nat.
Proof.
  induction s as [|c s IH]; simpl; [lia|].
  destruct (is_digit c); simpl; [|lia].
  destruct (scan_digits s) as [u r]. simpl in *. lia.
Qed.

Lemma scan_int_length (s r : jsstring) (u : Decimal.uint) :
  scan_int s = Some (u, r) -> (length r < length s)%nat.
Proof.
  destruct s as [|c s]; simpl; [discriminate|].
  destruct (c =? 48)%N.
  - intros H. inversion H; subst. lia.
  - destruct (is_digit c); [|discriminate].
    pose proof (scan_digits_length s) as Hl.
    destruct (scan_digits s) as [u' r']. simpl in *.
    intros H. inversion H; subst. lia.
Qed.

Lemma scan_frac_length (s r : jsstring) (b : bool) :
  scan_frac s = Some (b, r) -> (length r <= length s)%nat.
Proof.
  destruct s as [|c s]; simpl.
  - intros H. inversion H; subst. simpl. lia.
  - destruct (c =? 46)%N.
    + pose proof (scan_digits_length s) as Hl.
      destruct (scan_digits s) as [u' r']. simpl in *.
      destruct (is_nil u'); [discriminate|].
      intros H. inversion H; subst. lia.
    + intros H. inversion H; subst. simpl. lia.
Qed.

Lemma scan_exp_length (s r : jsstring) (b : bool) :
  scan_exp s = Some (b, r) -> (length r <= length s)%nat.
Proof.
  destruct s as [|c s]; simpl.
  - intros H. inversion H; subst. simpl. lia.
  - destruct ((c =? 101) || (c =? 69))%N.
    + set (r1 := match s with
                 | [] => s
                 | d :: r' => if ((d =? 43) || (d =? 45))%N then r' else s
                 end).
      assert (H1 : (length r1 <= length s)%nat).
      { subst r1. destruct s as [|d r']; simpl; [lia|].
        destruct ((d =? 43) || (d =? 45))%N; simpl; lia. }
      pose proof (scan_digits_length r1) as Hl.
      destruct (scan_digits r1) as [u' r']. simpl in *.
      destruct (is_nil u'); [discriminate|].
      intros H. inversion H; subst. lia.
    + intros H. inversion H; subst. simpl. lia.
Qed.

Lemma parse_number_consumes (s : jsstring) :
  consumes s (parse_number s) /\ fueled (parse_number s).
Proof.
  unfold parse_number.
  set (p := match s with
            | [] => (false, s)
            | c :: r => if (c =? 45)%N then (true, r) else (false, s)
            end).
  assert (Hp : (length (snd p) <= length s)%nat).
  { subst p. destruct s as [|c r]; simpl; [lia|].
    destruct (c =? 45)%N; simpl; lia. }
  destruct p as [neg s1]. simpl in Hp.
  destruct (scan_int s1) as [[u s2]|] eqn:E1; [|now split].
  apply scan_int_length in E1.
  destruct (scan_frac s2) as [[hf s3]|] eqn:E2; [|now split].
  apply scan_frac_length in E2.
  destruct (scan_exp s3) as [[he s4]|] eqn:E3; [|now split].
  apply scan_exp_length in E3.
  destruct (hf || he); simpl; split; auto; lia.
Qed.

Lemma parse_string_body_consumes (s : jsstring) :
  consumes s (parse_string_body s) /\ fueled (parse_string_body s).
Proof.
  remember (length s) as n eqn:Hn.
  assert (Hle : (length s <= n)%nat) by lia. clear Hn.
  revert s Hle. induction n as [|n IH]; intros s Hle.
  { destruct s; [now split|simpl in Hle; lia]. }
  destruct s as [|c r]; [now split|]. simpl in Hle.
  assert (Hsub : forall u t, (length t <= n)%nat -> (length t <= length r)%nat ->
            consumes (c :: r) (rmap (consl u) (parse_string_body t)) /\
            fueled (rmap (consl u) (parse_string_body t))).
  { intros u t Ht Htr. destruct (IH t Ht) as [H1 H2].
    destruct (parse_string_body t) as [[x r']| |]; simpl in *; split; auto.
    lia. }
  cbn [parse_string_body].
  destruct (c =? 34)%N; [simpl; split; auto; lia|].
  destruct (c =? 92)%N.
  - destruct r as [|e r1]; [now split|].
    destruct (e =? 117)%N.
    + destruct r1 as [|h1 [|h2 [|h3 [|h4 r2]]]]; try now split.
      destruct (hex4 h1 h2 h3 h4); [|now split].
      apply Hsub; simpl in *; lia.
    + destruct (simple_escape e); [|now split].
      apply Hsub; simpl in *; lia.
  - destruct (c <? 32)%N; [now split|].
    apply Hsub; lia.
Qed.

Lemma eat_length (p s r : jsstring) :
  eat p s = Some r -> (length r + length p = length s)%nat.
Proof.
  revert s. induction p as [|a p IH]; intros s; simpl.
  - intros H. inversion H; subst. lia.
  - destruct s as [|b s]; [discriminate|].
    destruct (a =? b)%N; [|discriminate].
    intros H. apply IH in H. simpl. lia.
Qed.

Lemma parse_literal_consumes (lit : jsstring) (v : json) (s : jsstring) :
  lit <> [] ->
  consumes s (parse_literal lit v s) /\ fueled (parse_literal lit v s).
Proof.
  intros Hl. unfold parse_literal.
  destruct (eat lit s) as [r|] eqn:E; [|now split].
  apply eat_length in E. simpl. split; [|exact I].
  destruct lit; [congruence|simpl in E; lia].
Qed.

Lemma parse_value_eq (f : nat) (s : jsstring) :
  parse_value (S f) s
  = match skip_ws s with
    | [] => SyntaxError
    | c :: r =>
        if (c =? 123)%N then
          match skip_ws r with
          | d :: r' =>
              if (d =? 125)%N then Ok (JObj [], r')
              else rmap (fun p => (JObj (fst p), snd p)) (parse_members f r)
          | [] => SyntaxError
          end
        else if (c =? 91)%N then
          match skip_ws r with
          | d :: r' =>
              if (d =? 93)%N then Ok (JArr [], r')
              else rmap (fun p => (JArr (fst p), snd p)) (parse_elements f r)
          | [] => SyntaxError
          end
        else if (c =? 34)%N then
          rmap (fun p => (JStr (fst p), snd p)) (parse_string_body r)
        else if (c =? 116)%N
        then parse_literal [116; 114; 117; 101]%N (JBool true) (c :: r)
        else if (c =? 102)%N
        then parse_literal [102; 97; 108; 115; 101]%N (JBool false) (c :: r)
        else if (c =? 110)%N
        then parse_literal [110; 117; 108; 108]%N JNull (c :: r)
        else parse_number (c :: r)
    end.
Proof. reflexivity. Qed.

(** Every successful step of the descent consumes input, and with fuel beyond
    twice the length of the text the descent never runs out of it: a [None]
    of [JSON_parse] is a syntax error. *)
Lemma descent_total (f : nat) :
  (forall s, consumes s (parse_value f s) /\
             ((2 * length s + 1 <= f)%nat -> fueled (parse_value f s))) /\
  (forall s, consumes s (parse_elements f s) /\
             ((2 * length s + 2 <= f)%nat -> fueled (parse_elements f s))) /\
  (forall s, consumes s (parse_members f s) /\
             ((2 * length s + 2 <= f)%nat -> fueled (parse_members f s))).
Proof.
  induction f as [|f (IHv & IHe & IHm)].
  { repeat split; simpl; auto; lia. }
  split; [|split]; intros s.
  - rewrite parse_value_eq.
    pose proof (skip_ws_length s) as Hs.
    destruct (skip_ws s) as [|c r]; [now split|]. simpl in Hs.
    destruct (c =? 123)%N.
    { pose proof (skip_ws_length r) as Hr.
      destruct (skip_ws r) as [|d r']; [now split|]. simpl in Hr.
      destruct (d =? 125)%N; [simpl; split; auto; lia|].
      destruct (IHm r) as [Hc Hf]. split.
      - apply consumes_rmap. eapply consumes_weaken; [|exact Hc]. lia.
      - intros Hfuel. apply fueled_rmap, Hf. lia. }
    destruct (c =? 91)%N.
    { pose proof (skip_ws_length r) as Hr.
      destruct (skip_ws r) as [|d r']; [now split|]. simpl in Hr.
      destruct (d =? 93)%N; [simpl; split; auto; lia|].
      destruct (IHe r) as [Hc Hf]. split.
      - apply consumes_rmap. eapply consumes_weaken; [|exact Hc]. lia.
      - intros Hfuel. apply fueled_rmap, Hf. lia. }
    destruct (c =? 34)%N.
    { destruct (parse_string_body_consumes r) as [Hc Hf]. split.
      - apply consumes_rmap. eapply consumes_weaken; [|exact Hc]. lia.
      - intros _. now apply fueled_rmap. }
    assert (Hw : forall res : result (json * jsstring),
               consumes (c :: r) res /\ fueled res ->
               consumes s res /\ ((2 * length s + 1 <= S f)%nat -> fueled res)).
    { intros res [Hc Hf]. split; [|auto].
      eapply consumes_weaken; [|exact Hc]. simpl. lia. }
    destruct (c =? 116)%N; [apply Hw, parse_literal_consumes; discriminate|].
    destruct (c =? 102)%N; [apply Hw, parse_literal_consumes; discriminate|].
    destruct (c =? 110)%N; [apply Hw, parse_literal_consumes; discriminate|].
    apply Hw, parse_number_consumes.
  - rewrite parse_elements_eq.
    destruct (IHv s) as [Hc Hf].
    destruct (parse_value f s) as [[v r]| |]; simpl in Hc.
    + pose proof (skip_ws_length r) as Hr.
      destruct (skip_ws r) as [|c r']; [now split|]. simpl in Hr.
      destruct (c =? 44)%N.
      { destruct (IHe r') as [Hc' Hf']. split.
        - apply consumes_rmap. eapply consumes_weaken; [|exact Hc']. lia.
        - intros Hfuel. apply fueled_rmap, Hf'. lia. }
      destruct (c =? 93)%N; [simpl; split; auto; lia|now split].
    + now split.
    + split; [exact I|]. intros Hfuel. apply Hf. lia.
  - rewrite parse_members_eq.
    pose proof (skip_ws_length s) as Hs.
    pose proof (parse_string_body_consumes) as Hbody.
    assert (Hstr : consumes (skip_ws s) (parse_string (skip_ws s)) /\
                   fueled (parse_string (skip_ws s))).
    { unfold parse_string. destruct (skip_ws s) as [|c r]; [now split|].
      destruct (c =? 34)%N; [|now split].
      destruct (Hbody r) as [H1 H2]. split; [|exact H2].
      eapply consumes_weaken; [|exact H1]. simpl. lia. }
    destruct Hstr as [Hc0 Hf0].
    destruct (parse_string (skip_ws s)) as [[k r]| |];
      [|now split|contradiction].
    simpl in Hc0.
    pose proof (skip_ws_length r) as Hr.
    destruct (skip_ws r) as [|c r1]; [now split|]. simpl in Hr.
    destruct (c =? 58)%N; [|now split].
    destruct (IHv r1) as [Hc Hf].
    destruct (parse_value f r1) as [[v r2]| |]; simpl in Hc.
    + pose proof (skip_ws_length r2) as Hr2.
      destruct (skip_ws r2) as [|d r3]; [now split|]. simpl in Hr2.
      destruct (d =? 44)%N.
      { destruct (IHm r3) as [Hc' Hf']. split.
        - apply consumes_rmap. eapply consumes_weaken; [|exact Hc']. lia.
        - intros Hfuel. apply fueled_rmap, Hf'. lia. }
      destruct (d =? 125)%N; [simpl; split; auto; lia|now split].
    + now split.
    + split; [exact I|]. intros Hfuel. apply Hf. lia.
Qed.

Lemma JSON_parse_fuel (s : jsstring) :
  parse_value (parse_fuel s) s <> OutOfFuel.
Proof.
  destruct (descent_total (parse_fuel s)) as (Hv & _).
  destruct (Hv s) as [_ Hf]. intros E.
  assert (H : fueled (parse_value (parse_fuel s) s))
    by (apply Hf; unfold parse_fuel; lia).
  now rewrite E in H.
Qed.

(** ** The persisted payload *)

Lemma canon_json_of_todos (l : list Todo) : canon (json_of_todos l) = true.
Proof. induction l as [|t l IH]; simpl in *; [reflexivity|exact IH]. Qed.

Lemma todos_of_json_of_todos (l : list Todo) :
  todos_of_json (json_of_todos l) = Some l.
Proof.
  unfold json_of_todos. simpl.
  induction l as [|[i s c] l IH]; simpl in *; [reflexivity|].
  now rewrite IH.
Qed.

Lemma json_of_todos_inj (l l' : list Todo) :
  json_of_todos l = json_of_todos l' -> l = l'.
Proof.
  intros H. apply (f_equal todos_of_json) in H.
  rewrite !todos_of_json_of_todos in H. congruence.
Qed.

Lemma encode_nonempty (l : list Todo) : nonempty (encode l) = true.
Proof. reflexivity. Qed.

Lemma JSON_parse_encode (l : list Todo) :
  JSON_parse (encode l) = Some (json_of_todos l).
Proof. apply JSON_parse_stringify, canon_json_of_todos. Qed.

Lemma initial_load_encode (l : list Todo) :
  initial_load (Some (encode l)) = json_of_todos l.
Proof.
  unfold initial_load. now rewrite encode_nonempty, JSON_parse_encode.
Qed.

Lemma mount_state (w : World) (l : list Todo) :
  todos_of_json (initial_load (storage w)) = Some l ->
  exists w',
    mount w = Some w' /\
    app w' = setIsLoaded true (setTodos l (app w)) /\
    storage w' = Some (encode l) /\
    writes w'
    = writes (persist_effect (app w) w) ++ [encode l].
Proof.
  intros H. unfold mount. rewrite H.
  eexists. split; [reflexivity|].
  unfold rerender, deps_changed. simpl.
  replace (todosRef (app w) =? S (todosRef (app w)))%nat with false
    by (symmetry; apply Nat.eqb_neq; lia).
  simpl. unfold persist_effect at 1. simpl. auto.
Qed.

(** C9: decoding the encoded list gives the list back, with its order, ids,
    texts and flags: [JSON.parse] of the payload is the array of the same
    task objects, so that a page loaded over this payload starts with the
    same list. *)
Theorem encode_decode_roundtrip (l : list Todo) :
  JSON_parse (encode l) = Some (json_of_todos l) /\
  decode (encode l) = Some l /\
  initial_load (Some (encode l)) = json_of_todos l /\
  exists w, mount (fresh_page (Some (encode l))) = Some w /\
            todos (app w) = l.
Proof.
  split; [apply JSON_parse_encode|].
  split; [unfold decode; rewrite JSON_parse_encode;
          apply todos_of_json_of_todos|].
  split; [apply initial_load_encode|].
  destruct (mount_state (fresh_page (Some (encode l))) l)
    as (w & Hm & Ha & _).
  - unfold fresh_page. cbn [storage].
    rewrite initial_load_encode. apply todos_of_json_of_todos.
  - exists w. split; [exact Hm|]. now rewrite Ha.
Qed.

(** ** The initial load *)

Lemma JSON_parse_empty : JSON_parse [] = None.
Proof. reflexivity. Qed.

(** C1, as the code has it: a payload that [JSON.parse] rejects is replaced
    by the three default tasks and the component still finishes loading;
    a payload that [JSON.parse] accepts is stored as parsed, whatever its
    shape. *)
Theorem initial_load_recovers (p : jsstring) :
  (JSON_parse p = None ->
   initial_load (Some p) = json_of_todos defaultTodos /\
   exists w, mount (fresh_page (Some p)) = Some w /\
             todos (app w) = defaultTodos /\ isLoaded (app w) = true) /\
  (forall v, JSON_parse p = Some v -> initial_load (Some p) = v).
Proof.
  split.
  - intros H.
    assert (E : initial_load (Some p) = json_of_todos defaultTodos).
    { unfold initial_load. rewrite H. now destruct (nonempty p). }
    split; [exact E|].
    destruct (mount_state (fresh_page (Some p)) defaultTodos)
      as (w & Hm & Ha & _).
    + unfold fresh_page. cbn [storage].
      rewrite E. apply todos_of_json_of_todos.
    + exists w. split; [exact Hm|]. now rewrite Ha.
  - intros v H. unfold initial_load.
    destruct p as [|c r]; [rewrite JSON_parse_empty in H; discriminate|].
    simpl nonempty. cbv iota. now rewrite H.
Qed.

(** C1 as stated fails: a payload that parses but lacks the fields [text]
    and [completed] is malformed, and is not replaced by the defaults. *)
Lemma initial_load_keeps_wrong_shape :
  malformed payload_without_fields /\
  initial_load (Some payload_without_fields)
  = JArr [JObj [(key_id, JNum 7)]] /\
  initial_load (Some payload_without_fields) <> json_of_todos defaultTodos.
Proof.
  split; [|split].
  - vm_compute. reflexivity.
  - vm_compute. reflexivity.
  - vm_compute. discriminate.
Qed.

(** ** Persistence follows the state *)

Ltac handler_cases :=
  repeat match goal with
         | |- context [if ?b then _ else _] => destruct b eqn:?
         | |- context [match ?o with Some _ => _ | None => _ end] =>
             destruct o eqn:?
         end.

(** No handler touches [isLoaded], and a handler that leaves the array object
    in place leaves the list in place. *)
Lemma handle_frame (i : intent) (st st' : AppState) :
  handle i st = Some st' ->
  isLoaded st' = isLoaded st /\
  (todosRef st' = todosRef st -> todos st' = todos st).
Proof.
  destruct i; simpl;
    unfold addTodo, toggleTodo, deleteTodo, moveTodoUp, moveTodoDown,
      startEditing, saveEdit, cancelEdit, clearAllTodos, resetToDefault,
      setDefaultTodos;
    handler_cases; intros H; inversion H; subst; simpl;
    (split; [reflexivity|intros; try reflexivity; lia]).
Qed.

Lemma rerender_user (old st' : AppState) (w : World) :
  isLoaded st' = isLoaded old ->
  (todosRef st' = todosRef old -> todos st' = todos old) ->
  let w' := rerender old (with_app st' w) in
  app w' = st' /\
  (isLoaded old = false -> writes w' = writes w /\ storage w' = storage w) /\
  (isLoaded old = true ->
   (todosRef st' = todosRef old /\ todos st' = todos old /\
    writes w' = writes w /\ storage w' = storage w)
   \/ (todosRef st' <> todosRef old /\
       writes w' = writes w ++ [encode (todos st')] /\
       storage w' = Some (encode (todos st')))).
Proof.
  intros Hl Hr. unfold rerender, deps_changed, persist_effect. simpl.
  rewrite Hl, Bool.eqb_reflx. simpl. rewrite orb_false_r.
  destruct (Nat.eqb_spec (todosRef old) (todosRef st')) as [E|E]; simpl.
  - split; [reflexivity|]. split; [auto|]. intros _. left. auto.
  - destruct (isLoaded old); simpl.
    + split; [reflexivity|]. split; [discriminate|]. intros _. right. auto.
    + split; [reflexivity|]. split; [auto|]. discriminate.
Qed.

Lemma in_step_dispatch (ev : event) (w0 w w' : World) :
  in_step w0 w -> dispatch ev w = Some w' -> in_step w0 w'.
Proof.
  intros [Hun Hld] Hd. destruct ev as [|i]; simpl in Hd.
  - destruct (todos_of_json (initial_load (storage w))) as [l|] eqn:El.
    2:{ unfold mount in Hd. rewrite El in Hd. discriminate. }
    destruct (mount_state w l El) as (w1 & Hm & Ha & Hs & Hw).
    rewrite Hm in Hd. inversion Hd; subst w1. clear Hd.
    split; rewrite Ha; simpl; [discriminate|]. intros _.
    split; [exact Hs|]. rewrite Hw. unfold persist_effect.
    destruct (isLoaded (app w)) eqn:L.
    + destruct (Hld eq_refl) as [_ [older Ho]]. simpl. rewrite Ho.
      exists (older ++ [encode (todos (app w))] ++ [encode (todos (app w))]).
      now rewrite <- !app_assoc.
    + destruct (Hun eq_refl) as [Ho _]. rewrite Ho. exists []. reflexivity.
  - destruct (handle i (app w)) as [st'|] eqn:Eh; [|discriminate].
    inversion Hd; subst w'. clear Hd.
    destruct (handle_frame i _ _ Eh) as [Hl Hr].
    destruct (rerender_user (app w) st' w Hl Hr) as (Ha & Hf & Ht).
    split; rewrite Ha, Hl; intros L.
    + destruct (Hf L) as [-> ->]. now apply Hun.
    + destruct (Hld L) as [Hs [older Ho]].
      destruct (Ht L) as [(_ & Et & -> & ->)|(_ & -> & ->)].
      * rewrite Et. split; [exact Hs|]. now exists older.
      * split; [reflexivity|]. rewrite Ho.
        exists (older ++ [encode (todos (app w))]).
        now rewrite <- !app_assoc.
Qed.

Lemma in_step_run (evs : list event) (w0 w w' : World) :
  in_step w0 w -> run evs w = Some w' -> in_step w0 w'.
Proof.
  revert w. induction evs as [|ev evs IH]; intros w Hi Hr; simpl in Hr.
  - now inversion Hr; subst.
  - destruct (dispatch ev w) as [w1|] eqn:Ed; [|discriminate].
    eapply IH; [|exact Hr]. eapply in_step_dispatch; eauto.
Qed.

(** C4: from a page that has not loaded yet, and over any sequence of
    events: as long as [isLoaded] is unset nothing has been written and the
    storage entry is as it was; once it is set the storage entry is the
    encoding of the current list, which was the last thing written, and a
    load from it gives the current list; and an event whose handler stores a
    new array, as every handler that changes the list does, writes the new
    list before the next event is taken. *)
Theorem persistence_in_step (evs : list event) (w0 w : World) :
  isLoaded (app w0) = false ->
  run evs w0 = Some w ->
  (isLoaded (app w) = false ->
   writes w = writes w0 /\ storage w = storage w0) /\
  (isLoaded (app w) = true ->
   storage w = Some (encode (todos (app w))) /\
   (exists older,
       writes w = writes w0 ++ older ++ [encode (todos (app w))]) /\
   initial_load (storage w) = json_of_todos (todos (app w))) /\
  (forall i w',
      isLoaded (app w) = true ->
      dispatch (User i) w = Some w' ->
      (todos (app w') <> todos (app w) ->
       todosRef (app w') <> todosRef (app w)) /\
      (todosRef (app w') <> todosRef (app w) ->
       writes w' = writes w ++ [encode (todos (app w'))] /\
       storage w' = Some (encode (todos (app w'))))).
Proof.
  intros H0 Hr.
  assert (Hi : in_step w0 w).
  { eapply in_step_run; [|exact Hr]. split; [auto|congruence]. }
  destruct Hi as [Hun Hld].
  split; [exact Hun|]. split.
  - intros L. destruct (Hld L) as [Hs Ho].
    split; [exact Hs|]. split; [exact Ho|].
    rewrite Hs. apply initial_load_encode.
  - intros i w' L Hd. simpl in Hd.
    destruct (handle i (app w)) as [st'|] eqn:Eh; [|discriminate].
    inversion Hd; subst w'. clear Hd.
    destruct (handle_frame i _ _ Eh) as [Hl Hrf].
    destruct (rerender_user (app w) st' w Hl Hrf) as (Ha & _ & Ht).
    rewrite Ha in *. split.
    + intros Hne E. now apply Hne, Hrf.
    + intros Hne. destruct (Ht L) as [(E & _)|(_ & Hw)];
        [contradiction|exact Hw].
Qed.

(** ** Distinct ids *)

Lemma as_todos_Some (a : js_array) (l : list Todo) :
  as_todos a = Some l -> a = map Some l.
Proof.
  revert l. induction a as [|[t|] a IH]; intros l H; simpl in H.
  - now inversion H.
  - destruct (as_todos a) as [l0|]; [|discriminate].
    inversion H; subst. simpl. f_equal. now apply IH.
  - discriminate.
Qed.

Lemma as_todos_undefined (a : js_array) :
  None ∈ a -> as_todos a = None.
Proof.
  intros H. destruct (as_todos a) as [l|] eqn:E; [|reflexivity].
  apply as_todos_Some in E. subst a.
  change (map Some l) with (Some <$> l) in H.
  apply list_elem_of_fmap in H. destruct H as (t & Ht & _). discriminate.
Qed.

Lemma arr_set_elem (a : js_array) (k : Z) (x : option Todo) :
  0 <= k -> x ∈ arr_set a k x.
Proof.
  intros Hk. unfold arr_set.
  destruct (Z.ltb_spec k 0); [lia|].
  destruct (Z.ltb_spec k (Z.of_nat (length a))).
  - apply list_elem_of_insert. lia.
  - rewrite !elem_of_app. right. right. now apply list_elem_of_singleton.
Qed.

(** A swap whose first index is outside the array stores [undefined]. *)
Lemma swap_entries_undefined (a : js_array) (i j : Z) :
  arr_get a i = None -> 0 <= j -> None ∈ swap_entries a i j.
Proof.
  intros Hi Hj. unfold swap_entries. rewrite Hi. now apply arr_set_elem.
Qed.

Lemma arr_get_out (l : list Todo) (i : Z) :
  i < 0 \/ Z.of_nat (length l) <= i -> arr_get (map Some l) i = None.
Proof.
  intros H. unfold arr_get. destruct (Z.ltb_spec i 0); [reflexivity|].
  destruct H as [H|H]; [lia|].
  rewrite lookup_ge_None_2; [reflexivity|].
  rewrite length_map. lia.
Qed.

Lemma swap_entries_negative (a : js_array) (i j : Z) :
  i < 0 -> j < 0 -> swap_entries a i j = a.
Proof.
  intros Hi Hj. unfold swap_entries, arr_set.
  destruct (Z.ltb_spec i 0); [|lia]. destruct (Z.ltb_spec j 0); [|lia].
  reflexivity.
Qed.

Lemma swapped_Permutation (l : list Todo) (i j : nat) (xi xj : Todo) :
  l !! i = Some xi -> l !! j = Some xj ->
  <[j := xi]> (<[i := xj]> l) ≡ₚ l.
Proof.
  intros Hi Hj.
  destruct (decide (i = j)) as [->|Hne].
  { rewrite list_insert_insert_eq. rewrite list_insert_id; [reflexivity|].
    congruence. }
  destruct (swapped_lookups l i j xi xj Hne Hi Hj) as (Hlen & H1 & H2 & H3).
  apply Permutation_inj. split; [exact Hlen|].
  exists (fun k => if decide (k = i) then j
                   else if decide (k = j) then i else k).
  split.
  - intros a b. repeat case_decide; subst; congruence.
  - intros k. repeat case_decide; subst; auto.
Qed.

Lemma arr_set_keeps (a : js_array) (k : Z) (x y : option Todo) :
  y ∈ a -> k < 0 \/ Z.of_nat (length a) <= k -> y ∈ arr_set a k x.
Proof.
  intros Hy Hk. unfold arr_set.
  destruct (Z.ltb_spec k 0); [exact Hy|].
  destruct (Z.ltb_spec k (Z.of_nat (length a))); [lia|].
  rewrite elem_of_app. now left.
Qed.

Lemma arr_set_length (a : js_array) (k : Z) (x : option Todo) :
  0 <= k < Z.of_nat (length a) -> length (arr_set a k x) = length a.
Proof.
  intros Hk. unfold arr_set.
  destruct (Z.ltb_spec k 0); [lia|].
  destruct (Z.ltb_spec k (Z.of_nat (length a))); [|lia].
  apply length_insert.
Qed.

Lemma swap_entries_Permutation (l l' : list Todo) (i j : Z) :
  j = i - 1 \/ j = i + 1 ->
  as_todos (swap_entries (map Some l) i j) = Some l' -> l' ≡ₚ l.
Proof.
  intros Hij H.
  assert (Hlen : length (map Some l) = length l) by apply length_map.
  destruct (Z.ltb_spec i 0) as [Hi0|Hi0].
  { destruct (Z.ltb_spec j 0) as [Hj0|Hj0].
    - rewrite swap_entries_negative, as_todos_map_Some in H by assumption.
      now inversion H.
    - rewrite as_todos_undefined in H; [discriminate|].
      apply swap_entries_undefined; [|exact Hj0].
      apply arr_get_out. now left. }
  destruct (Z.ltb_spec j 0) as [Hj0|Hj0].
  { (* i = 0 and j = -1: the entry at 0 becomes undefined *)
    rewrite as_todos_undefined in H; [discriminate|].
    unfold swap_entries.
    rewrite (arr_get_out l j) by now left.
    apply arr_set_keeps; [|now left]. now apply arr_set_elem. }
  destruct (Z.ltb_spec i (Z.of_nat (length l))) as [Hil|Hil].
  2:{ rewrite as_todos_undefined in H; [discriminate|].
      apply swap_entries_undefined; [|exact Hj0].
      apply arr_get_out. now right. }
  destruct (Z.ltb_spec j (Z.of_nat (length l))) as [Hjl|Hjl].
  2:{ (* i is the last index and j is past the end *)
      rewrite as_todos_undefined in H; [discriminate|].
      unfold swap_entries.
      rewrite (arr_get_out l j) by now right.
      apply arr_set_keeps; [now apply arr_set_elem|].
      right. rewrite arr_set_length; lia. }
  destruct (lookup_lt_is_Some_2 l (Z.to_nat i)) as [xi Hxi]; [lia|].
  destruct (lookup_lt_is_Some_2 l (Z.to_nat j)) as [xj Hxj]; [lia|].
  pose proof (swap_entries_in_range l _ _ _ _ Hxi Hxj) as Hs.
  rewrite !Z2Nat.id in Hs by lia. rewrite Hs, as_todos_map_Some in H.
  inversion H; subst. now apply swapped_Permutation.
Qed.

Lemma ids_rewrite_hit (f : Todo -> Todo) (hit : Todo -> bool) (l : list Todo) :
  (forall t, id (f t) = id t) -> ids (map (rewrite_hit f hit) l) = ids l.
Proof. intros H. now apply map_hit_preserves. Qed.

Lemma ids_filter_sublist (p : Todo -> bool) (l : list Todo) :
  sublist (ids (List.filter p l)) (ids l).
Proof.
  induction l as [|t l IH]; simpl; [constructor|].
  destruct (p t); simpl; now constructor.
Qed.

Lemma ids_Permutation (l l' : list Todo) : l' ≡ₚ l -> ids l' ≡ₚ ids l.
Proof.
  intros H. unfold ids. change (map id) with (fmap (M := list) id).
  now rewrite H.
Qed.

Lemma NoDup_default : NoDup (ids defaultTodos).
Proof.
  apply NoDup_ListNoDup. repeat constructor; simpl; intuition discriminate.
Qed.

Lemma rerender_app (old : AppState) (w : World) : app (rerender old w) = app w.
Proof.
  unfold rerender, persist_effect.
  destruct (deps_changed old (app w)); [|reflexivity].
  destruct (isLoaded (app w)); reflexivity.
Qed.

Lemma addTodo_ids (now : Z) (st : AppState) :
  ids (todos (addTodo now st))
  = if nonempty (trim (inputText st)) then ids (todos st) ++ [now]
    else ids (todos st).
Proof.
  unfold addTodo. destruct (nonempty (trim (inputText st))); [|reflexivity].
  simpl. unfold ids. now rewrite map_app.
Qed.

(** Every handler but [addTodo] keeps distinct ids distinct. *)
Lemma handle_NoDup (i : intent) (st st' : AppState) :
  (forall now, i = AddTodo now -> now ∉ ids (todos st)) ->
  handle i st = Some st' ->
  NoDup (ids (todos st)) -> NoDup (ids (todos st')).
Proof.
  intros Hfresh Hh Hnd. destruct i; simpl in Hh.
  - now inversion Hh; subst.
  - inversion Hh; subst. rewrite addTodo_ids.
    destruct (nonempty (trim (inputText st))); [|exact Hnd].
    apply list.NoDup_app. split; [exact Hnd|]. split.
    + intros x Hx Hx'. apply list_elem_of_singleton in Hx'. subst x.
      now apply (Hfresh now).
    + apply NoDup_singleton.
  - inversion Hh; subst. unfold toggleTodo. simpl.
    change (fun todo : Todo =>
              if id todo =? i
              then mkTodo (id todo) (text todo) (negb (completed todo))
              else todo)
      with (rewrite_hit flip_completed (fun todo => id todo =? i)).
    now rewrite ids_rewrite_hit.
  - inversion Hh; subst.
    assert (E : todos (deleteTodo i st)
                = List.filter (fun todo => negb (id todo =? i)) (todos st)).
    { unfold deleteTodo. now destruct (editing_is (editingId st) i). }
    rewrite E. eapply sublist_NoDup; [exact Hnd|apply ids_filter_sublist].
  - unfold moveTodoUp, moveTodoUp_array in Hh.
    destruct (0 <? index); [|now inversion Hh; subst].
    destruct (as_todos _) as [l'|] eqn:E; [|discriminate].
    inversion Hh; subst. simpl.
    apply swap_entries_Permutation in E; [|now left].
    now rewrite (ids_Permutation _ _ E).
  - unfold moveTodoDown, moveTodoDown_array in Hh.
    destruct (index <? _); [|now inversion Hh; subst].
    destruct (as_todos _) as [l'|] eqn:E; [|discriminate].
    inversion Hh; subst. simpl.
    apply swap_entries_Permutation in E; [|now right].
    now rewrite (ids_Permutation _ _ E).
  - now inversion Hh; subst.
  - now inversion Hh; subst.
  - inversion Hh; subst. unfold saveEdit. simpl.
    destruct (nonempty (trim (editingText st)) &&
              bool_decide (editingId st <> None)); [|exact Hnd].
    simpl.
    change (fun todo : Todo =>
              if editing_is (editingId st) (id todo)
              then mkTodo (id todo) (trim (editingText st)) (completed todo)
              else todo)
      with (rewrite_hit (with_text (trim (editingText st)))
                        (fun todo => editing_is (editingId st) (id todo))).
    now rewrite ids_rewrite_hit.
  - now inversion Hh; subst.
  - inversion Hh; subst. unfold clearAllTodos.
    destruct confirmed; [apply NoDup_nil_2|exact Hnd].
  - inversion Hh; subst. unfold resetToDefault.
    destruct confirmed; [apply NoDup_default|exact Hnd].
Qed.

(** C3, as the code has it: ids stay pairwise distinct under every event,
    provided that the clock reading given to [addTodo] is not already an id
    of the list (as when it is greater than all of them) and that the list
    read from the storage has distinct ids; and [addTodo] issues the clock
    reading as the id of the task it appends. *)
Theorem ids_distinct_step (ev : event) (w w' : World) :
  NoDup (ids (todos (app w))) ->
  (forall now, ev = User (AddTodo now) -> now ∉ ids (todos (app w))) ->
  (ev = Mount ->
   forall l, todos_of_json (initial_load (storage w)) = Some l ->
             NoDup (ids l)) ->
  dispatch ev w = Some w' ->
  NoDup (ids (todos (app w'))) /\
  (forall now, ev = User (AddTodo now) ->
               trim (inputText (app w)) <> [] ->
               ids (todos (app w')) = ids (todos (app w)) ++ [now]).
Proof.
  intros Hnd Hfresh Hload Hd. destruct ev as [|i]; simpl in Hd.
  - split; [|discriminate].
    destruct (todos_of_json (initial_load (storage w))) as [l|] eqn:El.
    2:{ unfold mount in Hd. rewrite El in Hd. discriminate. }
    destruct (mount_state w l El) as (w1 & Hm & Ha & _).
    rewrite Hm in Hd. inversion Hd; subst w1.
    rewrite Ha. simpl. now apply Hload.
  - destruct (handle i (app w)) as [st'|] eqn:Eh; [|discriminate].
    inversion Hd; subst w'. rewrite rerender_app. simpl. split.
    + eapply handle_NoDup; [|exact Eh|exact Hnd].
      intros now ->. now apply Hfresh.
    + intros now E Ht. inversion E; subst i. simpl in Eh.
      inversion Eh; subst st'. rewrite addTodo_ids.
      apply nonempty_true in Ht. now rewrite Ht.
Qed.

(** C3 as stated fails: two tasks added within the same millisecond get the
    same id. *)
Lemma same_millisecond_same_id :
  let evs := [Mount;
              User (InputChange [97%N]); User (AddTodo 1700000000000);
              User (InputChange [98%N]); User (AddTodo 1700000000000)] in
  option_map (fun w => ids (todos (app w))) (run evs (fresh_page None))
  = Some [1; 2; 3; 1700000000000; 1700000000000] /\
  ~ NoDup [1; 2; 3; 1700000000000; 1700000000000].
Proof.
  split; [vm_compute; reflexivity|].
  intros H.
  apply list.NoDup_cons in H as [_ H]. apply list.NoDup_cons in H as [_ H].
  apply list.NoDup_cons in H as [_ H]. apply list.NoDup_cons in H as [H _].
  apply H. constructor.
Qed.

(** * The statements at concrete inputs *)

Lemma addTodo_spec_witness :
  todos (addTodo 1700000000000 blank_state) = defaultTodos /\
  todos (addTodo 1700000000000 sample_state)
  = defaultTodos
      ++ [mkTodo 1700000000000 [83; 104; 105; 112; 32; 105; 116]%N false].
Proof.
  split.
  - apply (proj1 (addTodo_spec 1700000000000 blank_state)). reflexivity.
  - apply (proj2 (addTodo_spec 1700000000000 sample_state)).
    vm_compute. discriminate.
Defined.

Lemma toggleTodo_spec_witness :
  todos (toggleTodo 99 sample_state) = defaultTodos /\
  todos (toggleTodo 2 sample_state) !! 1%nat
  = Some (mkTodo 2 [86; 101; 114; 99; 101; 108; 12395; 12487; 12503; 12525;
                    12452]%N true).
Proof.
  destruct (toggleTodo_spec 99 sample_state) as (_ & _ & _ & _ & H & _).
  destruct (toggleTodo_spec 2 sample_state) as (K & _).
  split.
  - apply H. simpl. intros t Ht.
    destruct Ht as [<-|[<-|[<-|[]]]]; discriminate.
  - exact (K 1%nat
             (mkTodo 2 [86; 101; 114; 99; 101; 108; 12395; 12487; 12503;
                        12525; 12452]%N false)
             eq_refl).
Defined.

Lemma saveEdit_spec_witness :
  todos (saveEdit sample_state) !! 2%nat
  = Some (mkTodo 3 [65; 112; 112; 32; 108; 97; 117; 110; 99; 104; 101;
                    100]%N false) /\
  todos (saveEdit blank_state) = defaultTodos /\
  editingId (saveEdit sample_state) = None.
Proof.
  destruct (saveEdit_spec sample_state 3 eq_refl) as (H & _ & Hc & _).
  destruct (saveEdit_spec blank_state 3 eq_refl) as (_ & K & _).
  split; [|split].
  - destruct H as [_ H]; [vm_compute; discriminate|].
    exact (H 2%nat
             (mkTodo 3 [12450; 12503; 12522; 12434; 20844; 38283]%N false)
             eq_refl).
  - apply K. reflexivity.
  - exact Hc.
Defined.

Lemma saveEdit_dangling_cursor_witness :
  todos (saveEdit dangling_state) = defaultTodos /\
  editingId (saveEdit dangling_state) = None /\
  editingText (saveEdit dangling_state) = [].
Proof.
  apply (saveEdit_dangling_cursor dangling_state 99).
  - reflexivity.
  - simpl. intros t Ht. destruct Ht as [<-|[<-|[<-|[]]]]; discriminate.
  - vm_compute. discriminate.
Defined.

Lemma deleteTodo_spec_witness :
  todos (deleteTodo 99 sample_state) = defaultTodos /\
  editingId (deleteTodo 3 sample_state) = None /\
  editingId (deleteTodo 1 sample_state) = Some 3.
Proof.
  destruct (deleteTodo_spec 99 sample_state) as (_ & _ & H & _).
  destruct (deleteTodo_spec 3 sample_state) as (_ & _ & _ & _ & _ & K & _).
  destruct (deleteTodo_spec 1 sample_state) as (_ & _ & _ & _ & _ & _ & L).
  split; [|split].
  - apply H. simpl. intros t Ht.
    destruct Ht as [<-|[<-|[<-|[]]]]; discriminate.
  - apply K. reflexivity.
  - apply L. discriminate.
Defined.

Lemma move_spec_witness :
  (exists st', moveTodoUp 1 sample_state = Some st' /\
               todos st' !! 0%nat = defaultTodos !! 1%nat) /\
  (exists st', moveTodoDown 1 sample_state = Some st' /\
               todos st' !! 2%nat = defaultTodos !! 1%nat).
Proof.
  destruct (move_spec sample_state 1) as (Hup & Hdown & _).
  split.
  - destruct Hup as (st' & E & _ & _ & H & _); [simpl; lia|].
    exists st'. split; [exact E|exact H].
  - destruct Hdown as (st' & E & _ & _ & H & _); [simpl; lia|].
    exists st'. split; [exact E|exact H].
Defined.

Lemma initial_load_recovers_witness :
  initial_load (Some payload_garbage) = json_of_todos defaultTodos /\
  initial_load (Some payload_without_fields) = JArr [JObj [(key_id, JNum 7)]].
Proof.
  split.
  - apply (proj1 (initial_load_recovers payload_garbage)). reflexivity.
  - apply (proj2 (initial_load_recovers payload_without_fields)). reflexivity.
Defined.

Lemma persistence_in_step_witness :
  exists w,
    run sample_session (fresh_page None) = Some w /\
    ids (todos (app w)) = [2; 3; 1700000000000] /\
    storage w = Some (encode (todos (app w))) /\
    initial_load (storage w) = json_of_todos (todos (app w)).
Proof.
  destruct (run sample_session (fresh_page None)) as [w|] eqn:E;
    [|vm_compute in E; discriminate].
  exists w. split; [reflexivity|].
  destruct (persistence_in_step sample_session (fresh_page None) w
              eq_refl E) as (_ & H & _).
  assert (L : isLoaded (app w) = true /\
              ids (todos (app w)) = [2; 3; 1700000000000]).
  { vm_compute in E. injection E as <-. split; reflexivity. }
  destruct L as [L Hi]. destruct (H L) as (Hs & _ & Hl).
  split; [exact Hi|]. split; [exact Hs|exact Hl].
Defined.

Lemma ids_distinct_step_witness :
  exists w',
    dispatch (User (AddTodo 1700000000000))
             (mkWorld sample_state None []) = Some w' /\
    NoDup (ids (todos (app w'))) /\
    ids (todos (app w')) = [1; 2; 3; 1700000000000].
Proof.
  destruct (dispatch (User (AddTodo 1700000000000))
                     (mkWorld sample_state None [])) as [w'|] eqn:E;
    [|vm_compute in E; discriminate].
  exists w'. split; [reflexivity|].
  destruct (ids_distinct_step (User (AddTodo 1700000000000))
              (mkWorld sample_state None []) w') as [H K].
  - apply NoDup_default.
  - intros now Ev. injection Ev as <-. simpl.
    intros Hin. apply list_elem_of_In in Hin. simpl in Hin.
    destruct Hin as [?|[?|[?|[]]]]; discriminate.
  - discriminate.
  - exact E.
  - split; [exact H|].
    rewrite (K 1700000000000 eq_refl); [reflexivity|].
    vm_compute. discriminate.
Defined.

(** The scenario of the specification, run from a first visit: add, toggle
    task 2, remove task 1, then move the second remaining task up. *)
Example scenario_first_visit :
  option_map (fun w => map (fun t => (id t, completed t)) (todos (app w)))
             (run (sample_session ++ [User (MoveTodoUp 1)]) (fresh_page None))
  = Some [(3, false); (2, true); (1700000000000, false)].
Proof. vm_compute. reflexivity. Qed.

(** The same visit leaves the list in the storage, and a reload reads it
    back. *)
Example scenario_reload :
  match run sample_session (fresh_page None) with
  | Some w => option_map (fun w' => ids (todos (app w')))
                         (run [Mount] (fresh_page (storage w)))
  | None => None
  end = Some [2; 3; 1700000000000].
Proof. vm_compute. reflexivity. Qed.

(** * Further properties of the handlers *)

(** ** Moves *)

Lemma swap_entries_neighbours (l : list Todo) (i j : nat) :
  (i < length l)%nat -> (j < length l)%nat ->
  exists xi xj,
    l !! i = Some xi /\ l !! j = Some xj /\
    as_todos (swap_entries (map Some l) (Z.of_nat i) (Z.of_nat j))
    = Some (<[j := xi]> (<[i := xj]> l)).
Proof.
  intros Li Lj.
  destruct (lookup_lt_is_Some_2 _ _ Li) as [xi Hi].
  destruct (lookup_lt_is_Some_2 _ _ Lj) as [xj Hj].
  exists xi, xj. split; [exact Hi|]. split; [exact Hj|].
  now rewrite (swap_entries_in_range _ _ _ _ _ Hi Hj), as_todos_map_Some.
Qed.

Lemma moveTodoUp_in_range (st : AppState) (index : Z) :
  0 < index < Z.of_nat (length (todos st)) ->
  exists xi xj,
    todos st !! Z.to_nat index = Some xi /\
    todos st !! Z.to_nat (index - 1) = Some xj /\
    moveTodoUp index st
    = Some (setTodos (<[Z.to_nat (index - 1) := xi]>
                        (<[Z.to_nat index := xj]> (todos st))) st).
Proof.
  intros Hr.
  destruct (swap_entries_neighbours (todos st) (Z.to_nat index)
              (Z.to_nat (index - 1))) as (xi & xj & Hi & Hj & Hs); try lia.
  rewrite !Z2Nat.id in Hs by lia.
  exists xi, xj. split; [exact Hi|]. split; [exact Hj|].
  unfold moveTodoUp, moveTodoUp_array.
  destruct (Z.ltb_spec 0 index); [|lia]. now rewrite Hs.
Qed.

Lemma moveTodoDown_in_range (st : AppState) (index : Z) :
  0 <= index < Z.of_nat (length (todos st)) - 1 ->
  exists xi xj,
    todos st !! Z.to_nat index = Some xi /\
    todos st !! Z.to_nat (index + 1) = Some xj /\
    moveTodoDown index st
    = Some (setTodos (<[Z.to_nat (index + 1) := xi]>
                        (<[Z.to_nat index := xj]> (todos st))) st).
Proof.
  intros Hr.
  destruct (swap_entries_neighbours (todos st) (Z.to_nat index)
              (Z.to_nat (index + 1))) as (xi & xj & Hi & Hj & Hs); try lia.
  rewrite !Z2Nat.id in Hs by lia.
  exists xi, xj. split; [exact Hi|]. split; [exact Hj|].
  unfold moveTodoDown, moveTodoDown_array.
  destruct (Z.ltb_spec index (Z.of_nat (length (todos st)) - 1)); [|lia].
  now rewrite Hs.
Qed.

(** Swapping two positions and swapping them back gives the list back. *)
Lemma swap_back (l : list Todo) (i j : nat) (xi xj : Todo) :
  i <> j -> l !! i = Some xi -> l !! j = Some xj ->
  <[i := xi]> (<[j := xj]> (<[j := xi]> (<[i := xj]> l))) = l.
Proof.
  intros Hne Hi Hj.
  pose proof (lookup_lt_Some _ _ _ Hi) as Li.
  pose proof (lookup_lt_Some _ _ _ Hj) as Lj.
  apply list_eq. intros k.
  destruct (decide (k = i)) as [->|Hki].
  { rewrite list_lookup_insert_eq by now rewrite !length_insert. now rewrite Hi. }
  rewrite list_lookup_insert_ne by congruence.
  destruct (decide (k = j)) as [->|Hkj].
  { rewrite list_lookup_insert_eq by now rewrite !length_insert. now rewrite Hj. }
  now rewrite !list_lookup_insert_ne by congruence.
Qed.

(** X1: [moveTodoUp index] followed by [moveTodoDown (index - 1)] gives the
    list back, and so does [moveTodoDown index] followed by
    [moveTodoUp (index + 1)], for every index at which the first move swaps. *)
Theorem move_there_and_back (st : AppState) (index : Z) :
  (0 < index < Z.of_nat (length (todos st)) ->
   exists st1 st2,
     moveTodoUp index st = Some st1 /\
     moveTodoDown (index - 1) st1 = Some st2 /\
     todos st2 = todos st) /\
  (0 <= index < Z.of_nat (length (todos st)) - 1 ->
   exists st1 st2,
     moveTodoDown index st = Some st1 /\
     moveTodoUp (index + 1) st1 = Some st2 /\
     todos st2 = todos st).
Proof.
  split; intros Hr.
  - destruct (moveTodoUp_in_range st index Hr) as (xi & xj & Hi & Hj & Hup).
    set (l1 := <[Z.to_nat (index - 1) := xi]>
                 (<[Z.to_nat index := xj]> (todos st))) in *.
    assert (Hlen : length l1 = length (todos st))
      by (subst l1; now rewrite !length_insert).
    destruct (moveTodoDown_in_range (setTodos l1 st) (index - 1))
      as (yi & yj & Hyi & Hyj & Hdown).
    { simpl. rewrite Hlen. lia. }
    simpl in Hyi, Hyj, Hdown.
    replace (index - 1 + 1) with index in * by lia.
    pose proof (lookup_lt_Some _ _ _ Hi) as Li.
    pose proof (lookup_lt_Some _ _ _ Hj) as Lj.
    assert (Hne : Z.to_nat index <> Z.to_nat (index - 1)) by lia.
    assert (yi = xi).
    { subst l1. rewrite list_lookup_insert_eq in Hyi
        by (rewrite length_insert; lia). congruence. }
    assert (yj = xj).
    { subst l1. rewrite list_lookup_insert_ne in Hyj by congruence.
      rewrite list_lookup_insert_eq in Hyj by lia. congruence. }
    subst yi yj.
    eexists _, _. split; [exact Hup|]. split; [exact Hdown|].
    simpl. subst l1. now apply swap_back.
  - destruct (moveTodoDown_in_range st index Hr) as (xi & xj & Hi & Hj & Hdn).
    set (l1 := <[Z.to_nat (index + 1) := xi]>
                 (<[Z.to_nat index := xj]> (todos st))) in *.
    assert (Hlen : length l1 = length (todos st))
      by (subst l1; now rewrite !length_insert).
    destruct (moveTodoUp_in_range (setTodos l1 st) (index + 1))
      as (yi & yj & Hyi & Hyj & Hup).
    { simpl. rewrite Hlen. lia. }
    simpl in Hyi, Hyj, Hup.
    replace (index + 1 - 1) with index in * by lia.
    pose proof (lookup_lt_Some _ _ _ Hi) as Li.
    pose proof (lookup_lt_Some _ _ _ Hj) as Lj.
    assert (Hne : Z.to_nat index <> Z.to_nat (index + 1)) by lia.
    assert (yi = xi).
    { subst l1. rewrite list_lookup_insert_eq in Hyi
        by (rewrite length_insert; lia). congruence. }
    assert (yj = xj).
    { subst l1. rewrite list_lookup_insert_ne in Hyj by congruence.
      rewrite list_lookup_insert_eq in Hyj by lia. congruence. }
    subst yi yj.
    eexists _, _. split; [exact Hdn|]. split; [exact Hup|].
    simpl. subst l1. now apply swap_back.
Qed.

Lemma move_there_and_back_witness :
  exists st1 st2,
    moveTodoUp 2 sample_state = Some st1 /\
    moveTodoDown 1 st1 = Some st2 /\
    todos st2 = defaultTodos.
Proof.
  apply (proj1 (move_there_and_back sample_state 2)). simpl. lia.
Defined.

Lemma moveTodoUp_Permutation (st st' : AppState) (index : Z) :
  moveTodoUp index st = Some st' ->
  todos st' ≡ₚ todos st /\
  inputText st' = inputText st /\
  isLoaded st' = isLoaded st /\
  editingId st' = editingId st /\
  editingText st' = editingText st.
Proof.
  intros H. unfold moveTodoUp, moveTodoUp_array in H.
  destruct (0 <? index); [|inversion H; subst; now repeat split].
  destruct (as_todos _) as [l'|] eqn:E; [|discriminate].
  inversion H; subst. simpl.
  apply swap_entries_Permutation in E; [|now left]. now repeat split.
Qed.

Lemma moveTodoDown_Permutation (st st' : AppState) (index : Z) :
  moveTodoDown index st = Some st' ->
  todos st' ≡ₚ todos st /\
  inputText st' = inputText st /\
  isLoaded st' = isLoaded st /\
  editingId st' = editingId st /\
  editingText st' = editingText st.
Proof.
  intros H. unfold moveTodoDown, moveTodoDown_array in H.
  destruct (index <? _); [|inversion H; subst; now repeat split].
  destruct (as_todos _) as [l'|] eqn:E; [|discriminate].
  inversion H; subst. simpl.
  apply swap_entries_Permutation in E; [|now right]. now repeat split.
Qed.

(** X2: a move that succeeds only reorders: the new list is a permutation of
    the old one, and the input, the loaded flag and the editing cursor are
    left alone. *)
Theorem move_permutes (st st' : AppState) (index : Z) :
  moveTodoUp index st = Some st' \/ moveTodoDown index st = Some st' ->
  todos st' ≡ₚ todos st /\
  length (todos st') = length (todos st) /\
  inputText st' = inputText st /\
  isLoaded st' = isLoaded st /\
  editingId st' = editingId st /\
  editingText st' = editingText st.
Proof.
  intros H.
  assert (Hp : todos st' ≡ₚ todos st /\
               inputText st' = inputText st /\
               isLoaded st' = isLoaded st /\
               editingId st' = editingId st /\
               editingText st' = editingText st).
  { destruct H as [H|H];
      [now apply (moveTodoUp_Permutation st st' index)
      |now apply (moveTodoDown_Permutation st st' index)]. }
  destruct Hp as (Hp & Hrest). split; [exact Hp|].
  split; [now apply Permutation_length|exact Hrest].
Qed.

Lemma move_permutes_witness :
  exists st', moveTodoDown 0 sample_state = Some st' /\
              todos st' ≡ₚ defaultTodos.
Proof.
  destruct (moveTodoDown 0 sample_state) as [st'|] eqn:E;
    [|vm_compute in E; discriminate].
  exists st'. split; [reflexivity|].
  apply (move_permutes sample_state st' 0). now right.
Defined.



Lemma rows_lookup (st : AppState) (k : nat) (index : Z) (todo : Todo) :
  rows st !! k = Some (index, todo) ->
  index = Z.of_nat k /\ todos st !! k = Some todo.
Proof.
  unfold rows. rewrite list_lookup_imap.
  destruct (todos st !! k) as [t|] eqn:E; simpl; [|discriminate].
  intros H. inversion H; subst. now split.
Qed.

(** X4: the move buttons of a drawn row are safe.  For every row, a button
    that is not disabled calls its handler with an index at which the
    handler swaps, so the state stays a task list and only its order
    changes. *)
Theorem enabled_moves_succeed (st : AppState) (index : Z) (todo : Todo) :
  (index, todo) ∈ rows st ->
  (moveUp_disabled index = false ->
   exists st', moveTodoUp index st = Some st' /\ todos st' ≡ₚ todos st) /\
  (moveDown_disabled st index = false ->
   exists st', moveTodoDown index st = Some st' /\ todos st' ≡ₚ todos st).
Proof.
  intros Hin. apply list_elem_of_lookup in Hin. destruct Hin as [k Hk].
  apply rows_lookup in Hk. destruct Hk as [-> Hk].
  pose proof (lookup_lt_Some _ _ _ Hk) as Lk.
  split; intros Hd.
  - unfold moveUp_disabled in Hd. apply Z.eqb_neq in Hd.
    destruct (moveTodoUp_in_range st (Z.of_nat k)) as (xi & xj & _ & _ & E);
      [lia|].
    eexists. split; [exact E|].
    apply (proj1 (moveTodoUp_Permutation st _ (Z.of_nat k) E)).
  - unfold moveDown_disabled in Hd. apply Z.eqb_neq in Hd.
    destruct (moveTodoDown_in_range st (Z.of_nat k)) as (xi & xj & _ & _ & E);
      [lia|].
    eexists. split; [exact E|].
    apply (proj1 (moveTodoDown_Permutation st _ (Z.of_nat k) E)).
Qed.

Lemma enabled_moves_succeed_witness :
  exists st', moveTodoUp 1 sample_state = Some st' /\
              todos st' ≡ₚ defaultTodos.
Proof.
  refine (proj1 (enabled_moves_succeed sample_state 1
                   (mkTodo 2 [86; 101; 114; 99; 101; 108; 12395; 12487;
                              12503; 12525; 12452]%N false) _) eq_refl).
  apply list_elem_of_In. simpl. auto.
Defined.

(** ** Texts *)

Lemma trimStart_clean (s : jsstring) : starts_clean (trimStart s).
Proof.
  induction s as [|c s IH]; simpl; [exact I|].
  destruct (is_white_space c) eqn:E; [exact IH|exact E].
Qed.

Lemma trimStart_split (s : jsstring) :
  exists ws, s = ws ++ trimStart s.
Proof.
  induction s as [|c s [ws IH]]; simpl; [now exists []|].
  destruct (is_white_space c).
  - exists (c :: ws). simpl. now rewrite <- IH.
  - now exists [].
Qed.

Lemma trimStart_id (s : jsstring) : starts_clean s -> trimStart s = s.
Proof. destruct s as [|c s]; simpl; [reflexivity|]. now intros ->. Qed.

Lemma starts_clean_app_l (a b : jsstring) :
  starts_clean (a ++ b) -> starts_clean a.
Proof. destruct a; simpl; auto. Qed.

(** What [trim] returns has no white space at either end. *)
Lemma trim_trimmed (s : jsstring) : trimmed (trim s).
Proof.
  unfold trimmed, trim, trimEnd. split.
  - destruct (trimStart_split (rev (trimStart s))) as [ws E].
    apply (starts_clean_app_l _ (rev ws)).
    rewrite <- rev_app_distr, <- E, rev_involutive.
    apply trimStart_clean.
  - rewrite rev_involutive. apply trimStart_clean.
Qed.

Lemma trimmed_trim (s : jsstring) : trimmed s -> trim s = s.
Proof.
  intros [H1 H2]. unfold trim, trimEnd.
  rewrite (trimStart_id s H1), (trimStart_id (rev s) H2).
  apply rev_involutive.
Qed.

Lemma texts_ok_default : texts_ok defaultTodos.
Proof.
  unfold texts_ok, defaultTodos.
  repeat constructor; simpl; try discriminate; reflexivity.
Qed.

Lemma texts_ok_rewrite (f : Todo -> Todo) (hit : Todo -> bool)
      (l : list Todo) :
  (forall t, text (f t) <> [] /\ trimmed (text (f t))) ->
  texts_ok l -> texts_ok (map (rewrite_hit f hit) l).
Proof.
  intros Hf. unfold texts_ok. induction 1 as [|t l Ht _ IH]; simpl;
    constructor; [|exact IH].
  unfold rewrite_hit. destruct (hit t); [apply Hf|exact Ht].
Qed.

Lemma texts_ok_rewrite_same (f : Todo -> Todo) (hit : Todo -> bool)
      (l : list Todo) :
  (forall t, text (f t) = text t) ->
  texts_ok l -> texts_ok (map (rewrite_hit f hit) l).
Proof.
  intros Hf. unfold texts_ok. induction 1 as [|t l Ht _ IH]; simpl;
    constructor; [|exact IH].
  unfold rewrite_hit. destruct (hit t); [now rewrite Hf|exact Ht].
Qed.

Lemma texts_ok_filter (p : Todo -> bool) (l : list Todo) :
  texts_ok l -> texts_ok (List.filter p l).
Proof.
  unfold texts_ok. induction 1 as [|t l Ht _ IH]; simpl; [constructor|].
  destruct (p t); [now constructor|exact IH].
Qed.

(** Every handler keeps the texts of the list non-empty and trimmed. *)
Lemma handle_texts_ok (i : intent) (st st' : AppState) :
  texts_ok (todos st) -> handle i st = Some st' -> texts_ok (todos st').
Proof.
  intros Hok Hh. destruct i; simpl in Hh.
  - now inversion Hh; subst.
  - inversion Hh; subst. unfold addTodo.
    destruct (nonempty (trim (inputText st))) eqn:E; [|exact Hok].
    simpl. apply Forall_app. split; [exact Hok|].
    constructor; [|constructor]. simpl.
    split; [now apply nonempty_true|apply trim_trimmed].
  - inversion Hh; subst. unfold toggleTodo. simpl.
    change (fun todo : Todo =>
              if id todo =? i
              then mkTodo (id todo) (text todo) (negb (completed todo))
              else todo)
      with (rewrite_hit flip_completed (fun todo => id todo =? i)).
    now apply texts_ok_rewrite_same.
  - inversion Hh; subst.
    assert (E : todos (deleteTodo i st)
                = List.filter (fun todo => negb (id todo =? i)) (todos st)).
    { unfold deleteTodo. now destruct (editing_is (editingId st) i). }
    rewrite E. now apply texts_ok_filter.
  - apply moveTodoUp_Permutation in Hh. destruct Hh as [Hp _].
    unfold texts_ok. now rewrite Hp.
  - apply moveTodoDown_Permutation in Hh. destruct Hh as [Hp _].
    unfold texts_ok. now rewrite Hp.
  - now inversion Hh; subst.
  - now inversion Hh; subst.
  - inversion Hh; subst. unfold saveEdit. simpl.
    destruct (nonempty (trim (editingText st))) eqn:E; simpl; [|exact Hok].
    destruct (bool_decide (editingId st <> None)); simpl; [|exact Hok].
    change (fun todo : Todo =>
              if editing_is (editingId st) (id todo)
              then mkTodo (id todo) (trim (editingText st)) (completed todo)
              else todo)
      with (rewrite_hit (with_text (trim (editingText st)))
                        (fun todo => editing_is (editingId st) (id todo))).
    apply texts_ok_rewrite; [|exact Hok].
    intros t. simpl. split; [now apply nonempty_true|apply trim_trimmed].
  - now inversion Hh; subst.
  - inversion Hh; subst. unfold clearAllTodos.
    destruct confirmed; [constructor|exact Hok].
  - inversion Hh; subst. unfold resetToDefault.
    destruct confirmed; [apply texts_ok_default|exact Hok].
Qed.

(** ** Invariants over a session *)

Lemma rerender_storage (old : AppState) (w : World) :
  storage (rerender old w) = storage w \/
  storage (rerender old w) = Some (encode (todos (app w))).
Proof.
  unfold rerender, persist_effect.
  destruct (deps_changed old (app w)); [|now left].
  destruct (isLoaded (app w)); [now right|now left].
Qed.

Lemma stored_list_encode (w : World) (l l' : list Todo) :
  storage w = Some (encode l) -> stored_list w = Some l' -> l' = l.
Proof.
  unfold stored_list. intros ->.
  rewrite initial_load_encode, todos_of_json_of_todos. congruence.
Qed.

Section SessionInvariant.
Variables P Q : list Todo -> Prop.
Hypothesis P_Q : forall l, P l -> Q l.

Lemma dispatch_user_invariant (i : intent) (w w' : World) :
  (forall st', handle i (app w) = Some st' -> Q (todos st')) ->
  (forall l, stored_list w = Some l -> P l) ->
  dispatch (User i) w = Some w' ->
  Q (todos (app w')) /\ (forall l, stored_list w' = Some l -> Q l).
Proof.
  intros Hstep Hst Hd. simpl in Hd.
  destruct (handle i (app w)) as [st'|] eqn:Eh; [|discriminate].
  inversion Hd; subst w'. rewrite rerender_app. simpl.
  split; [now apply Hstep|]. intros l Hl.
  destruct (rerender_storage (app w) (with_app st' w)) as [E|E].
  - apply P_Q, Hst. unfold stored_list in *. rewrite E in Hl. exact Hl.
  - simpl in E. rewrite (stored_list_encode _ _ _ E Hl). now apply Hstep.
Qed.

Lemma dispatch_mount_invariant (w w' : World) :
  (forall l, stored_list w = Some l -> P l) ->
  dispatch Mount w = Some w' ->
  Q (todos (app w')) /\ (forall l, stored_list w' = Some l -> Q l).
Proof.
  intros Hst Hd. simpl in Hd.
  destruct (todos_of_json (initial_load (storage w))) as [l|] eqn:El.
  2:{ unfold mount in Hd. rewrite El in Hd. discriminate. }
  destruct (mount_state w l El) as (w1 & Hm & Ha & Hs & _).
  rewrite Hm in Hd. inversion Hd; subst w1.
  assert (HQ : Q l) by now apply P_Q, Hst.
  split; [now rewrite Ha|].
  intros l' Hl'. now rewrite (stored_list_encode _ _ _ Hs Hl').
Qed.
End SessionInvariant.

(** X5: the texts of the list stay non-empty and free of white space at both
    ends over any session, when the list and the storage entry of the
    starting point are so: [addTodo] and [saveEdit] only ever store a
    non-empty [trim] result. *)
Theorem texts_stay_trimmed (evs : list event) (w0 w : World) :
  texts_ok (todos (app w0)) ->
  (forall l, stored_list w0 = Some l -> texts_ok l) ->
  run evs w0 = Some w ->
  texts_ok (todos (app w)).
Proof.
  revert w0. induction evs as [|ev evs IH]; intros w0 H0 Hs Hr; simpl in Hr.
  - now inversion Hr; subst.
  - destruct (dispatch ev w0) as [w1|] eqn:Ed; [|discriminate].
    assert (H1 : texts_ok (todos (app w1)) /\
                 forall l, stored_list w1 = Some l -> texts_ok l).
    { destruct ev as [|i].
      - apply (dispatch_mount_invariant texts_ok texts_ok) with (w := w0);
          auto.
      - apply (dispatch_user_invariant texts_ok texts_ok) with (i := i)
                                                              (w := w0);
          auto.
        intros st' Hh. eapply handle_texts_ok; eauto. }
    destruct H1 as [H1 H1']. now apply (IH w1).
Qed.

Lemma texts_stay_trimmed_witness :
  exists w, run sample_session (fresh_page None) = Some w /\
            texts_ok (todos (app w)).
Proof.
  destruct (run sample_session (fresh_page None)) as [w|] eqn:E;
    [|vm_compute in E; discriminate].
  exists w. split; [reflexivity|].
  apply (texts_stay_trimmed sample_session (fresh_page None) w).
  - constructor.
  - intros l Hl. vm_compute in Hl. injection Hl as <-. apply texts_ok_default.
  - exact E.
Defined.

(** ** Handlers on a list with distinct ids *)

Lemma ids_In (l : list Todo) (t : Todo) : In t l -> id t ∈ ids l.
Proof.
  intros H. apply list_elem_of_In. unfold ids. now apply in_map.
Qed.

Lemma ids_inj (l : list Todo) (u t : Todo) :
  NoDup (ids l) -> In u l -> In t l -> id u = id t -> u = t.
Proof.
  induction l as [|a l IH]; simpl; [tauto|].
  intros Hnd Hu Ht E. apply list.NoDup_cons in Hnd as [Ha Hnd].
  destruct Hu as [->|Hu], Ht as [->|Ht]; auto.
  - exfalso. apply Ha. rewrite E. now apply ids_In.
  - exfalso. apply Ha. rewrite <- E. now apply ids_In.
Qed.

(** X6: opening the editor on a task and saving at once changes nothing:
    when the ids are distinct and the text of the task is non-empty and
    trimmed, [startEditing] with the task's own text followed by [saveEdit]
    gives the list back. *)
Theorem edit_without_change (st : AppState) (t : Todo) :
  NoDup (ids (todos st)) ->
  In t (todos st) ->
  text t <> [] -> trimmed (text t) ->
  todos (saveEdit (startEditing (id t) (text t) st)) = todos st /\
  editingId (saveEdit (startEditing (id t) (text t) st)) = None.
Proof.
  intros Hnd Hin Hne Htr. split; [|apply saveEdit_clears].
  rewrite (saveEdit_todos (startEditing (id t) (text t) st) (id t) eq_refl).
  simpl. rewrite (trimmed_trim _ Htr).
  apply nonempty_true in Hne. rewrite Hne.
  rewrite <- (map_id (todos st)) at 2. apply map_ext_in.
  intros u Hu. unfold rewrite_hit.
  destruct (Z.eqb_spec (id t) (id u)) as [E|E]; [|reflexivity].
  rewrite (ids_inj _ u t Hnd Hu Hin (eq_sym E)).
  now destruct t.
Qed.

Lemma edit_without_change_witness :
  todos (saveEdit (startEditing 2
                     [86; 101; 114; 99; 101; 108; 12395; 12487; 12503;
                      12525; 12452]%N sample_state)) = defaultTodos.
Proof.
  apply (edit_without_change sample_state
           (mkTodo 2 [86; 101; 114; 99; 101; 108; 12395; 12487; 12503;
                      12525; 12452]%N false)).
  - apply NoDup_default.
  - simpl. auto.
  - discriminate.
  - split; reflexivity.
Defined.

Lemma count_toggle (i : Z) (l : list Todo) (t : Todo) :
  NoDup (ids l) -> In t l -> id t = i ->
  let l' := map (rewrite_hit flip_completed (fun todo => id todo =? i)) l in
  let count := fun l => length (List.filter (fun todo => completed todo) l) in
  (completed t = true -> S (count l') = count l) /\
  (completed t = false -> count l' = S (count l)).
Proof.
  intros Hnd Hin Hi. simpl. revert Hnd Hin.
  induction l as [|a l IH]; simpl; [tauto|].
  intros Hnd Hin. apply list.NoDup_cons in Hnd as [Ha Hnd].
  destruct Hin as [->|Hin].
  - rewrite map_hit_none.
    2:{ intros u Hu. apply Z.eqb_neq. intros E. apply Ha.
        rewrite Hi, <- E. now apply ids_In. }
    assert (Et : rewrite_hit flip_completed (fun todo => id todo =? i) t
                 = flip_completed t)
      by (unfold rewrite_hit; now rewrite Hi, Z.eqb_refl).
    rewrite !Et.
    destruct t as [j s c]. simpl in *. destruct c; simpl; split;
      intros; congruence.
  - assert (Hne : id a <> i).
    { intros E. apply Ha. rewrite E, <- Hi. now apply ids_In. }
    assert (Ea : rewrite_hit flip_completed (fun todo => id todo =? i) a = a)
      by (unfold rewrite_hit; now rewrite (proj2 (Z.eqb_neq _ _) Hne)).
    rewrite !Ea.
    destruct (IH Hnd Hin) as [H1 H2].
    destruct (completed a); simpl; split; intros Hc; auto.
Qed.

(** X7: with distinct ids, toggling a task of the list moves the count of
    completed tasks by exactly one, down when the task was completed and up
    when it was not, and leaves the total alone. *)
Theorem toggle_moves_count_by_one (st : AppState) (t : Todo) :
  NoDup (ids (todos st)) ->
  In t (todos st) ->
  totalCount (toggleTodo (id t) st) = totalCount st /\
  (completed t = true ->
   S (completedCount (toggleTodo (id t) st)) = completedCount st) /\
  (completed t = false ->
   completedCount (toggleTodo (id t) st) = S (completedCount st)).
Proof.
  intros Hnd Hin. split.
  - unfold totalCount, toggleTodo. simpl. apply length_map.
  - apply (count_toggle (id t) (todos st) t Hnd Hin eq_refl).
Qed.

Lemma toggle_moves_count_by_one_witness :
  completedCount (toggleTodo 2 sample_state) = 2%nat.
Proof.
  apply (proj2 (proj2 (toggle_moves_count_by_one sample_state
           (mkTodo 2 [86; 101; 114; 99; 101; 108; 12395; 12487; 12503;
                      12525; 12452]%N false)
           NoDup_default (or_intror (or_introl eq_refl))))).
  reflexivity.
Defined.

Lemma filter_out_one (l : list Todo) (t : Todo) :
  NoDup (ids l) -> In t l ->
  S (length (List.filter (fun todo => negb (id todo =? id t)) l)) = length l.
Proof.
  induction l as [|a l IH]; simpl; [tauto|].
  intros Hnd Hin. apply list.NoDup_cons in Hnd as [Ha Hnd].
  destruct Hin as [->|Hin].
  - rewrite Z.eqb_refl. simpl. f_equal.
    rewrite filter_all; [reflexivity|].
    intros u Hu. apply negb_true_iff, Z.eqb_neq. intros Eu.
    apply Ha. rewrite <- Eu. now apply ids_In.
  - assert (Hne : id a <> id t).
    { intros Ea. apply Ha. rewrite Ea. now apply ids_In. }
    rewrite (proj2 (Z.eqb_neq _ _) Hne). simpl. f_equal. now apply IH.
Qed.

(** X8: with distinct ids, deleting a task of the list shortens the list by
    exactly one, and the task is gone. *)
Theorem delete_removes_one (st : AppState) (t : Todo) :
  NoDup (ids (todos st)) ->
  In t (todos st) ->
  S (totalCount (deleteTodo (id t) st)) = totalCount st /\
  ~ In t (todos (deleteTodo (id t) st)).
Proof.
  intros Hnd Hin.
  assert (E : todos (deleteTodo (id t) st)
              = List.filter (fun todo => negb (id todo =? id t)) (todos st)).
  { unfold deleteTodo. now destruct (editing_is (editingId st) (id t)). }
  unfold totalCount. rewrite E. split.
  - now apply filter_out_one.
  - intros H. apply filter_In in H. destruct H as [_ H].
    now rewrite Z.eqb_refl in H.
Qed.

Lemma delete_removes_one_witness :
  totalCount (deleteTodo 1 sample_state) = 2%nat.
Proof.
  apply eq_add_S.
  apply (proj1 (delete_removes_one sample_state
                  (mkTodo 1 [67; 108; 97; 117; 100; 101; 12391; 12450;
                             12503; 12522; 12434; 20316; 25104]%N true)
                  NoDup_default (or_introl eq_refl))).
Defined.

(** X9: deleting the task that [addTodo] has just added undoes the add, when
    the clock reading was not already an id of the list. *)
Theorem delete_undoes_add (now : Z) (st : AppState) :
  now ∉ ids (todos st) ->
  todos (deleteTodo now (addTodo now st)) = todos st.
Proof.
  intros Hfresh.
  assert (E : forall s, todos (deleteTodo now s)
                = List.filter (fun todo => negb (id todo =? now)) (todos s)).
  { intros s. unfold deleteTodo. now destruct (editing_is (editingId s) now). }
  assert (Hall : List.filter (fun todo => negb (id todo =? now)) (todos st)
                 = todos st).
  { apply filter_all. intros u Hu. apply negb_true_iff, Z.eqb_neq.
    intros Eu. apply Hfresh. rewrite <- Eu. now apply ids_In. }
  rewrite E. unfold addTodo.
  destruct (nonempty (trim (inputText st))); [|exact Hall].
  simpl. rewrite List.filter_app, Hall. simpl.
  rewrite Z.eqb_refl. simpl. apply app_nil_r.
Qed.

Lemma delete_undoes_add_witness :
  todos (deleteTodo 1700000000000 (addTodo 1700000000000 sample_state))
  = defaultTodos.
Proof.
  apply (delete_undoes_add 1700000000000 sample_state).
  intros H. apply list_elem_of_In in H. simpl in H.
  destruct H as [?|[?|[?|[]]]]; discriminate.
Defined.

(** ** How the handlers compose *)

Lemma deleteTodo_todos (i : Z) (st : AppState) :
  todos (deleteTodo i st)
  = List.filter (fun todo => negb (id todo =? i)) (todos st).
Proof. unfold deleteTodo. now destruct (editing_is (editingId st) i). Qed.

Lemma toggleTodo_todos (i : Z) (st : AppState) :
  todos (toggleTodo i st)
  = map (rewrite_hit flip_completed (fun todo => id todo =? i)) (todos st).
Proof. reflexivity. Qed.

Lemma filter_filter_swap {A} (p q : A -> bool) (l : list A) :
  List.filter p (List.filter q l) = List.filter q (List.filter p l).
Proof.
  induction l as [|a l IH]; simpl; [reflexivity|].
  destruct (p a) eqn:Ep, (q a) eqn:Eq; simpl; rewrite ?Ep, ?Eq, IH;
    reflexivity.
Qed.

Lemma filter_map_by_id (i : Z) (f : Todo -> Todo) (l : list Todo) :
  (forall t, id (f t) = id t) ->
  List.filter (fun todo => negb (id todo =? i)) (map f l)
  = map f (List.filter (fun todo => negb (id todo =? i)) l).
Proof.
  intros Hf. induction l as [|a l IH]; simpl; [reflexivity|].
  rewrite Hf, IH. now destruct (negb (id a =? i)).
Qed.

(** X10: toggles and deletes can be done in any order: two toggles commute,
    two deletes commute, a toggle commutes with a delete, and toggling a
    deleted id changes nothing further. *)
Theorem toggles_and_deletes_commute (i j : Z) (st : AppState) :
  todos (toggleTodo i (toggleTodo j st))
  = todos (toggleTodo j (toggleTodo i st)) /\
  todos (deleteTodo i (deleteTodo j st))
  = todos (deleteTodo j (deleteTodo i st)) /\
  todos (deleteTodo i (toggleTodo j st))
  = todos (toggleTodo j (deleteTodo i st)) /\
  todos (toggleTodo i (deleteTodo i st)) = todos (deleteTodo i st).
Proof.
  split; [|split; [|split]].
  - rewrite !toggleTodo_todos, !map_map. apply map_ext.
    intros [k s c]. unfold rewrite_hit, flip_completed. simpl.
    destruct (k =? i) eqn:Ei, (k =? j) eqn:Ej; simpl;
      rewrite ?Ei, ?Ej; reflexivity.
  - rewrite !deleteTodo_todos. apply filter_filter_swap.
  - rewrite deleteTodo_todos, !toggleTodo_todos, deleteTodo_todos.
    apply filter_map_by_id. intros t. unfold rewrite_hit.
    now destruct (id t =? j).
  - rewrite toggleTodo_todos, deleteTodo_todos.
    apply map_hit_none. intros t Ht. apply filter_In in Ht.
    destruct Ht as [_ Ht]. now apply negb_true_iff in Ht.
Qed.

(** X11: with distinct ids at most one row is drawn with the edit input. *)
Theorem one_row_in_edit_mode (st : AppState) (k1 k2 : nat)
        (r1 r2 : Z * Todo) :
  NoDup (ids (todos st)) ->
  rows st !! k1 = Some r1 -> rows st !! k2 = Some r2 ->
  row_editing st (snd r1) = true -> row_editing st (snd r2) = true ->
  k1 = k2.
Proof.
  intros Hnd H1 H2 E1 E2.
  destruct r1 as [i1 t1], r2 as [i2 t2]. simpl in E1, E2.
  apply rows_lookup in H1, H2. destruct H1 as [_ H1], H2 as [_ H2].
  unfold row_editing, editing_is in E1, E2.
  destruct (editingId st) as [e|]; [|discriminate].
  apply Z.eqb_eq in E1, E2.
  apply (proj1 (NoDup_alt (ids (todos st))) Hnd k1 k2 e).
  - unfold ids. change (map id) with (fmap (M := list) id).
    now rewrite list_lookup_fmap, H1, E1.
  - unfold ids. change (map id) with (fmap (M := list) id).
    now rewrite list_lookup_fmap, H2, E2.
Qed.

Lemma one_row_in_edit_mode_witness :
  rows sample_state !! 2%nat
  = Some (2, mkTodo 3 [12450; 12503; 12522; 12434; 20844; 38283]%N false) /\
  2%nat = 2%nat.
Proof.
  split; [reflexivity|].
  apply (one_row_in_edit_mode sample_state 2%nat 2%nat
           (2, mkTodo 3 [12450; 12503; 12522; 12434; 20844; 38283]%N false)
           (2, mkTodo 3 [12450; 12503; 12522; 12434; 20844; 38283]%N false)
           NoDup_default eq_refl eq_refl eq_refl eq_refl).
Defined.

(** ** Keys *)

(** X12: in the input for new tasks only Enter does anything, and a second
    Enter straight after the first adds nothing, the first having emptied
    the input. *)
Theorem enter_adds_once (key : jsstring) (now1 now2 : Z) (st : AppState) :
  (key <> key_Enter -> handleKeyPress key now1 st = st) /\
  handleKeyPress key_Enter now2 (handleKeyPress key_Enter now1 st)
  = handleKeyPress key_Enter now1 st.
Proof.
  split.
  - intros Hk. unfold handleKeyPress, jsstring_eqb.
    now rewrite bool_decide_eq_false_2.
  - unfold handleKeyPress. simpl. unfold addTodo at 1.
    destruct (nonempty (trim (inputText (addTodo now1 st)))) eqn:E;
      [|reflexivity].
    exfalso. unfold addTodo in E.
    destruct (nonempty (trim (inputText st))) eqn:E1.
    + simpl in E. discriminate.
    + congruence.
Qed.

Lemma enter_adds_once_witness :
  handleKeyPress [97%N] 5 sample_state = sample_state.
Proof.
  apply (proj1 (enter_adds_once [97%N] 5 5 sample_state)). discriminate.
Defined.

(** X13: Escape in the edit input undoes the whole edit: opening the editor
    on a task, typing any draft and pressing Escape gives back exactly the
    state before, when no edit was open then; and a key other than Enter and
    Escape leaves the state alone. *)
Theorem escape_discards_edit (key : jsstring) (i : Z) (s draft : jsstring)
        (st : AppState) :
  (editingId st = None -> editingText st = [] ->
   handleEditKeyPress key_Escape
     (setEditingText draft (startEditing i s st)) = st) /\
  (key <> key_Enter -> key <> key_Escape ->
   handleEditKeyPress key st = st).
Proof.
  split.
  - intros H1 H2. destruct st as [l r inp ld e t]. simpl in *. subst.
    reflexivity.
  - intros H1 H2. unfold handleEditKeyPress, jsstring_eqb.
    now rewrite !bool_decide_eq_false_2.
Qed.

Lemma escape_discards_edit_witness :
  handleEditKeyPress key_Escape
    (setEditingText [120%N] (startEditing 2 [] idle_state))
  = idle_state /\
  handleEditKeyPress [97%N] sample_state = sample_state.
Proof.
  split.
  - apply (proj1 (escape_discards_edit [] 2 [] [120%N]
                    idle_state)); reflexivity.
  - apply (proj2 (escape_discards_edit [97%N] 0 [] [] sample_state));
      discriminate.
Defined.

(** ** What reaches the storage *)

(** X14: typing is never persisted: changing the input for new tasks,
    opening the editor, typing a draft and cancelling leave the list, the
    storage entry and the log of writes as they were. *)
Theorem drafts_are_not_persisted (i : intent) (w : World) :
  (exists v, i = InputChange v) \/ (exists j s, i = StartEditing j s) \/
  (exists v, i = EditChange v) \/ i = CancelEdit ->
  exists w',
    dispatch (User i) w = Some w' /\
    todos (app w') = todos (app w) /\
    storage w' = storage w /\
    writes w' = writes w.
Proof.
  intros H.
  assert (Hh : exists st', handle i (app w) = Some st' /\
                           todos st' = todos (app w) /\
                           todosRef st' = todosRef (app w) /\
                           isLoaded st' = isLoaded (app w)).
  { destruct H as [[v ->]|[(j & s & ->)|[[v ->]| ->]]]; simpl;
      eexists; (split; [reflexivity|]); simpl; auto. }
  destruct Hh as (st' & Hh & Ht & Hr & Hl).
  simpl. rewrite Hh. eexists. split; [reflexivity|].
  unfold rerender, deps_changed. simpl.
  rewrite Hr, Hl, Nat.eqb_refl, Bool.eqb_reflx. simpl. auto.
Qed.

Lemma drafts_are_not_persisted_witness :
  exists w',
    dispatch (User (EditChange [120%N])) (mkWorld sample_state None [])
    = Some w' /\
    todos (app w') = defaultTodos /\ storage w' = None /\ writes w' = [].
Proof.
  apply (drafts_are_not_persisted (EditChange [120%N])
           (mkWorld sample_state None [])).
  right. right. left. now exists [120%N].
Defined.

(** X15: after a confirmed clear-all the list is empty, the storage holds
    the text of an empty array, the buttons for clearing and resetting are no
    longer drawn, and a reload shows the empty list, not the defaults; an
    unconfirmed clear-all changes nothing. *)
Theorem clear_all_survives_reload (w : World) :
  isLoaded (app w) = true ->
  (exists w',
      dispatch (User (ClearAllTodos true)) w = Some w' /\
      todos (app w') = [] /\
      storage w' = Some [91%N; 93%N] /\
      show_management (app w') = false /\
      exists w2, mount (fresh_page (storage w')) = Some w2 /\
                 todos (app w2) = []) /\
  (exists w',
      dispatch (User (ClearAllTodos false)) w = Some w' /\
      app w' = app w /\ storage w' = storage w /\ writes w' = writes w).
Proof.
  intros L. split.
  - simpl. eexists. split; [reflexivity|].
    unfold rerender, deps_changed. simpl.
    replace (todosRef (app w) =? S (todosRef (app w)))%nat with false
      by (symmetry; apply Nat.eqb_neq; lia).
    simpl. unfold persist_effect. simpl. rewrite L. simpl.
    split; [reflexivity|]. split; [reflexivity|]. split; [reflexivity|].
    eexists. split; reflexivity.
  - simpl. eexists. split; [reflexivity|].
    unfold rerender, deps_changed. simpl.
    rewrite Nat.eqb_refl, Bool.eqb_reflx. simpl. auto.
Qed.

Lemma clear_all_survives_reload_witness :
  exists w',
    dispatch (User (ClearAllTodos true)) (mkWorld sample_state None [])
    = Some w' /\
    storage w' = Some [91%N; 93%N].
Proof.
  destruct (proj1 (clear_all_survives_reload (mkWorld sample_state None [])
                     eq_refl)) as (w' & Hd & _ & Hs & _).
  exists w'. split; [exact Hd|exact Hs].
Defined.

(** X16: on a first visit, when the storage has no entry or an empty one,
    the page loads the three default tasks and writes them to the storage at
    once, as the only write. *)
Theorem first_visit_seeds_storage (w : World) :
  storage w = None \/ storage w = Some [] ->
  isLoaded (app w) = false ->
  exists w',
    mount w = Some w' /\
    todos (app w') = defaultTodos /\
    isLoaded (app w') = true /\
    storage w' = Some (encode defaultTodos) /\
    writes w' = writes w ++ [encode defaultTodos].
Proof.
  intros Hs L.
  destruct (mount_state w defaultTodos) as (w' & Hm & Ha & Hst & Hw).
  { destruct Hs as [-> | ->]; reflexivity. }
  exists w'. split; [exact Hm|]. rewrite Ha. simpl.
  split; [reflexivity|]. split; [reflexivity|]. split; [exact Hst|].
  rewrite Hw. unfold persist_effect. now rewrite L.
Qed.

Lemma first_visit_seeds_storage_witness :
  exists w',
    mount (fresh_page (Some [])) = Some w' /\
    todos (app w') = defaultTodos /\
    isLoaded (app w') = true /\
    storage w' = Some (encode defaultTodos) /\
    writes w' = [encode defaultTodos].
Proof.
  apply (first_visit_seeds_storage (fresh_page (Some []))).
  - now right.
  - reflexivity.
Defined.

(** X17: the payload determines the list: two lists with the same encoding
    are the same list. *)
Theorem encode_injective (l l' : list Todo) : encode l = encode l' -> l = l'.
Proof.
  intros H. apply (f_equal decode) in H. unfold decode in H.
  rewrite !JSON_parse_encode, !todos_of_json_of_todos in H. congruence.
Qed.

Lemma encode_injective_witness :
  todos (toggleTodo 99 sample_state) = defaultTodos.
Proof.
  apply (encode_injective (todos (toggleTodo 99 sample_state)) defaultTodos).
  vm_compute. reflexivity.
Defined.

Lemma run_isLoaded (evs : list event) (w w' : World) :
  run evs w = Some w' -> isLoaded (app w) = true ->
  isLoaded (app w') = true.
Proof.
  revert w. induction evs as [|ev evs IH]; intros w Hr L; simpl in Hr.
  - now inversion Hr; subst.
  - destruct (dispatch ev w) as [w1|] eqn:Ed; [|discriminate].
    apply (IH w1 Hr). destruct ev as [|i]; simpl in Ed.
    + destruct (todos_of_json (initial_load (storage w))) as [l|] eqn:El.
      2:{ unfold mount in Ed. rewrite El in Ed. discriminate. }
      destruct (mount_state w l El) as (w2 & Hm & Ha & _).
      rewrite Hm in Ed. inversion Ed; subst. now rewrite Ha.
    + destruct (handle i (app w)) as [st'|] eqn:Eh; [|discriminate].
      inversion Ed; subst. rewrite rerender_app. simpl.
      destruct (handle_frame i _ _ Eh) as [Hl _]. congruence.
Qed.

(** X18: once the page has loaded it stays loaded, whatever events follow,
    so the loading screen does not come back; and every load that succeeds
    sets the flag. *)
Theorem loaded_for_good (evs : list event) (w w' : World) :
  run (Mount :: evs) w = Some w' \/
  (isLoaded (app w) = true /\ run evs w = Some w') ->
  isLoaded (app w') = true.
Proof.
  intros [H|[L H]].
  - simpl in H. destruct (mount w) as [w1|] eqn:Em; [|discriminate].
    apply (run_isLoaded evs w1 w' H).
    destruct (todos_of_json (initial_load (storage w))) as [l|] eqn:El.
    2:{ unfold mount in Em. rewrite El in Em. discriminate. }
    destruct (mount_state w l El) as (w2 & Hm & Ha & _).
    rewrite Hm in Em. inversion Em; subst. now rewrite Ha.
  - now apply (run_isLoaded evs w w').
Qed.

Lemma loaded_for_good_witness :
  exists w, run sample_session (fresh_page None) = Some w /\
            isLoaded (app w) = true.
Proof.
  destruct (run sample_session (fresh_page None)) as [w|] eqn:E;
    [|vm_compute in E; discriminate].
  exists w. split; [reflexivity|].
  apply (loaded_for_good (tail sample_session) (fresh_page None) w).
  left. exact E.
Defined.

(** X19: a reload shows what was on screen: after any session that has
    loaded, a fresh page over the storage entry loads the same list, with an
    empty input and no edit open, and writes the same payload back. *)
Theorem reload_restores_list (evs : list event) (w0 w : World) :
  isLoaded (app w0) = false ->
  run evs w0 = Some w ->
  isLoaded (app w) = true ->
  exists w2,
    mount (fresh_page (storage w)) = Some w2 /\
    todos (app w2) = todos (app w) /\
    inputText (app w2) = [] /\
    editingId (app w2) = None /\
    storage w2 = storage w /\
    writes w2 = [encode (todos (app w))].
Proof.
  intros H0 Hr L.
  assert (Hi : in_step w0 w).
  { eapply in_step_run; [|exact Hr]. split; [auto|congruence]. }
  destruct Hi as [_ Hld]. destruct (Hld L) as [Hs _].
  destruct (mount_state (fresh_page (storage w)) (todos (app w)))
    as (w2 & Hm & Ha & Hst & Hw).
  { unfold fresh_page. cbn [storage]. rewrite Hs, initial_load_encode.
    apply todos_of_json_of_todos. }
  exists w2. split; [exact Hm|]. rewrite Ha, Hst, Hw, Hs. simpl.
  repeat split; reflexivity.
Qed.

Lemma reload_restores_list_witness :
  exists w w2,
    run sample_session (fresh_page None) = Some w /\
    mount (fresh_page (storage w)) = Some w2 /\
    todos (app w2) = todos (app w).
Proof.
  destruct (run sample_session (fresh_page None)) as [w|] eqn:E;
    [|vm_compute in E; discriminate].
  assert (L : isLoaded (app w) = true).
  { vm_compute in E. injection E as <-. reflexivity. }
  destruct (reload_restores_list sample_session (fresh_page None) w
              eq_refl E L) as (w2 & Hm & Ht & _).
  exists w, w2. split; [reflexivity|]. split; [exact Hm|exact Ht].
Defined.

(** ** Distinct ids over a session *)

Lemma ids_default_below (lo : Z) : 3 < lo -> ids_below lo defaultTodos.
Proof.
  intros H. split; [apply NoDup_default|].
  intros i Hi. apply list_elem_of_In in Hi. simpl in Hi.
  destruct Hi as [<-|[<-|[<-|[]]]]; lia.
Qed.

Lemma ids_below_mono (lo lo' : Z) (l : list Todo) :
  lo <= lo' -> ids_below lo l -> ids_below lo' l.
Proof.
  intros H [Hnd Hb]. split; [exact Hnd|].
  intros i Hi. specialize (Hb i Hi). lia.
Qed.

(** The ids a handler leaves in the list were there before, or are ids of
    the default list, or the clock reading just taken. *)
Lemma handle_ids_from (i : intent) (st st' : AppState) (x : Z) :
  handle i st = Some st' -> x ∈ ids (todos st') ->
  x ∈ ids (todos st) \/ x ∈ ids defaultTodos \/ i = AddTodo x.
Proof.
  intros Hh Hx. destruct i; simpl in Hh; try (inversion Hh; subst; now left).
  - inversion Hh; subst. rewrite addTodo_ids in Hx.
    destruct (nonempty (trim (inputText st))); [|now left].
    apply elem_of_app in Hx. destruct Hx as [Hx|Hx]; [now left|].
    apply list_elem_of_singleton in Hx. subst. now right; right.
  - inversion Hh; subst. left. rewrite toggleTodo_todos in Hx.
    now rewrite ids_rewrite_hit in Hx.
  - inversion Hh; subst. left. rewrite deleteTodo_todos in Hx.
    eapply elem_of_sublist; [exact Hx|apply ids_filter_sublist].
  - left. apply moveTodoUp_Permutation in Hh. destruct Hh as [Hp _].
    now rewrite <- (ids_Permutation _ _ Hp).
  - left. apply moveTodoDown_Permutation in Hh. destruct Hh as [Hp _].
    now rewrite <- (ids_Permutation _ _ Hp).
  - inversion Hh; subst. left. unfold saveEdit in Hx. simpl in Hx.
    destruct (nonempty (trim (editingText st)) &&
              bool_decide (editingId st <> None)); [|exact Hx].
    simpl in Hx.
    change (fun todo : Todo =>
              if editing_is (editingId st) (id todo)
              then mkTodo (id todo) (trim (editingText st)) (completed todo)
              else todo)
      with (rewrite_hit (with_text (trim (editingText st)))
                        (fun todo => editing_is (editingId st) (id todo)))
      in Hx.
    now rewrite ids_rewrite_hit in Hx.
  - inversion Hh; subst. unfold clearAllTodos in Hx.
    destruct confirmed; [|now left]. simpl in Hx. inversion Hx.
  - inversion Hh; subst. unfold resetToDefault in Hx.
    destruct confirmed; [now right; left|now left].
Qed.

Lemma handle_ids_below (i : intent) (st st' : AppState) (lo lo' : Z) :
  3 < lo -> lo <= lo' ->
  (forall now, i = AddTodo now -> lo <= now < lo') ->
  ids_below lo (todos st) -> handle i st = Some st' ->
  ids_below lo' (todos st').
Proof.
  intros H3 Hlo Hadd [Hnd Hb] Hh. split.
  - eapply handle_NoDup; [|exact Hh|exact Hnd].
    intros now -> Hin. specialize (Hb now Hin).
    specialize (Hadd now eq_refl). lia.
  - intros x Hx.
    destruct (handle_ids_from i st st' x Hh Hx) as [H|[H|H]].
    + specialize (Hb x H). lia.
    + destruct (ids_default_below lo H3) as [_ Hd]. specialize (Hd x H). lia.
    + specialize (Hadd x H). lia.
Qed.

(** X20: with a clock that advances between adds, ids stay distinct over a
    whole session: when the ids of the list and of the stored list are
    distinct and below [lo] at the start, with [lo] above the default ids,
    and the clock readings of the adds are at least [lo] and strictly
    increasing, every state the session reaches has distinct ids. *)
Theorem ids_distinct_over_session (evs : list event) (lo : Z)
        (w0 w : World) :
  3 < lo ->
  clock_advances lo evs ->
  ids_below lo (todos (app w0)) ->
  (forall l, stored_list w0 = Some l -> ids_below lo l) ->
  run evs w0 = Some w ->
  NoDup (ids (todos (app w))).
Proof.
  revert lo w0. induction evs as [|ev evs IH];
    intros lo w0 H3 Hc H0 Hs Hr; simpl in Hr.
  - inversion Hr; subst. apply H0.
  - destruct (dispatch ev w0) as [w1|] eqn:Ed; [|discriminate].
    assert (Hother : (forall now, ev <> User (AddTodo now)) ->
                     ids_below lo (todos (app w1)) /\
                     (forall l, stored_list w1 = Some l -> ids_below lo l)).
    { intros Hne. destruct ev as [|i].
      - apply (dispatch_mount_invariant (ids_below lo) (ids_below lo)
                 (fun l H => H) w0 w1 Hs Ed).
      - apply (dispatch_user_invariant (ids_below lo) (ids_below lo)
                 (fun l H => H) i w0 w1); auto.
        intros st' Hh.
        apply (handle_ids_below i (app w0) st' lo lo H3 (Z.le_refl _));
          auto.
        intros now ->. exfalso. now apply (Hne now). }
    destruct ev as [|[]];
      try (destruct Hother as [H1 H1']; [intros n; discriminate|];
           simpl in Hc; now apply (IH lo w1)).
    clear Hother. simpl in Hc. destruct Hc as [Hlo Hc].
    destruct (dispatch_user_invariant (ids_below lo) (ids_below (now + 1))
                (fun l => ids_below_mono lo (now + 1) l ltac:(lia))
                (AddTodo now) w0 w1) as [H1 H1']; auto.
    + intros st' Hh.
      apply (handle_ids_below (AddTodo now) (app w0) st' lo (now + 1) H3);
        auto; [lia|].
      intros n E. inversion E; subst. lia.
    + apply (IH (now + 1) w1); auto. lia.
Qed.

Lemma ids_distinct_over_session_witness :
  exists w, run sample_session (fresh_page None) = Some w /\
            NoDup (ids (todos (app w))).
Proof.
  destruct (run sample_session (fresh_page None)) as [w|] eqn:E;
    [|vm_compute in E; discriminate].
  exists w. split; [reflexivity|].
  apply (ids_distinct_over_session sample_session 4 (fresh_page None) w).
  - lia.
  - simpl. split; [lia|exact I].
  - split; [apply NoDup_nil_2|]. intros i Hi. inversion Hi.
  - intros l Hl. vm_compute in Hl. injection Hl as <-.
    apply ids_default_below. lia.
  - exact E.
Defined.

(** ** The editing cursor *)

Lemma ids_filter_keeps (i x : Z) (l : list Todo) :
  x ∈ ids l -> x <> i ->
  x ∈ ids (List.filter (fun todo => negb (id todo =? i)) l).
Proof.
  intros Hx Hne. apply list_elem_of_In in Hx. apply list_elem_of_In.
  unfold ids in *. apply in_map_iff in Hx. destruct Hx as (t & Et & Ht).
  apply in_map_iff. exists t. split; [exact Et|].
  apply filter_In. split; [exact Ht|].
  apply negb_true_iff, Z.eqb_neq. congruence.
Qed.

(** X21: the editing cursor never dangles through the drawn controls: when
    the cursor, if set, holds the id of a task of the list, and the editor
    is only opened on a task of the list, the same holds after every
    handler. *)
Theorem cursor_stays_on_a_task (i : intent) (st st' : AppState) :
  cursor_ok st ->
  (forall j s, i = StartEditing j s -> j ∈ ids (todos st)) ->
  handle i st = Some st' ->
  cursor_ok st'.
Proof.
  unfold cursor_ok. intros Hc Hstart Hh.
  destruct i; simpl in Hh.
  - now inversion Hh; subst.
  - inversion Hh; subst. rewrite addTodo_ids. unfold addTodo.
    destruct (nonempty (trim (inputText st))); [|exact Hc]. simpl.
    destruct (editingId st); [|exact I]. apply elem_of_app. now left.
  - inversion Hh; subst. rewrite toggleTodo_todos, ids_rewrite_hit by auto.
    exact Hc.
  - inversion Hh; subst. rewrite deleteTodo_todos. unfold deleteTodo.
    destruct (editingId st) as [e|] eqn:Ee; simpl; [|now rewrite Ee].
    destruct (Z.eqb_spec e i) as [->|Hne]; simpl; [exact I|].
    rewrite Ee. now apply ids_filter_keeps.
  - pose proof (moveTodoUp_Permutation _ _ _ Hh) as (Hp & _ & _ & He & _).
    rewrite He. destruct (editingId st); [|exact I].
    now rewrite (ids_Permutation _ _ Hp).
  - pose proof (moveTodoDown_Permutation _ _ _ Hh) as (Hp & _ & _ & He & _).
    rewrite He. destruct (editingId st); [|exact I].
    now rewrite (ids_Permutation _ _ Hp).
  - inversion Hh; subst. simpl. now apply (Hstart i currentText).
  - now inversion Hh; subst.
  - inversion Hh; subst. now destruct (saveEdit_clears st) as [-> _].
  - now inversion Hh; subst.
  - inversion Hh; subst. unfold clearAllTodos.
    destruct confirmed; [exact I|exact Hc].
  - inversion Hh; subst. unfold resetToDefault.
    destruct confirmed; [exact I|exact Hc].
Qed.

Lemma cursor_stays_on_a_task_witness :
  cursor_ok (deleteTodo 1 sample_state).
Proof.
  apply (cursor_stays_on_a_task (DeleteTodo 1) sample_state).
  - apply list_elem_of_In. simpl. auto.
  - intros j s E. discriminate.
  - reflexivity.
Defined.

(** ** Every write can be read back *)




